(** * soong_zip: the parallel zip builder of [cmd/soong_zip/soong_zip.go]

    A shallow embedding of the planner ([writeRelFile], [writeFile],
    [writeDirectory], [writeSymlink]), of the compression tasks
    ([crcFile], [compressPartialFile], [compressBlock],
    [compressWholeFile]) and of the writer loop of [write], followed by
    the properties of the archive-build pipeline.

    Conventions of the embedding.
    - A Go channel is represented by what is eventually received from it:
      a receive blocks until the producer has sent, so the timing of the
      producers does not change what the single writer receives.
    - A goroutine that reports a failure posts to [z.errors]; the posted
      errors are collected in the [errors] field of the writer object.
    - The zip record emitter ([third_party/zip]) and [compress/flate] are
      libraries: the first is represented by the log of the calls made on
      it, the second is a parameter of the development.
    - The rate limiter delays tasks and counts buffered bytes; it takes no
      part in what is written and is left out. *)

From Stdlib Require Import ZArith Strings.String Strings.Ascii Strings.Byte List Lia Bool.
From stdpp Require Import base gmap strings list.
Import ListNotations.

Local Open Scope string_scope.

(** ** Bytes and CRC-32 *)

Definition bytes := list byte.

Definition byte_val (b : byte) : Z := Z.of_N (Byte.to_N b).

(** [bytes.NewBufferString]: the bytes of a Go string. *)
Definition bytes_of_string (s : string) : bytes := list_byte_of_string s.

(** [hash/crc32] with the IEEE polynomial, bit by bit (reflected form). *)
Module crc32.

Definition IEEE : Z := 0xEDB88320%Z.

Definition shift1 (crc : Z) : Z :=
  if Z.testbit crc 0
  then Z.lxor (Z.shiftr crc 1) IEEE
  else Z.shiftr crc 1.

Definition update_byte (crc : Z) (b : byte) : Z :=
  Nat.iter 8 shift1 (Z.lxor crc (byte_val b)).

Definition Sum32 (data : bytes) : Z :=
  Z.lxor (fold_left update_byte data 0xFFFFFFFF%Z) 0xFFFFFFFF%Z.

End crc32.

(** ** Strings and paths: the parts of [strings] and [path/filepath] used *)

Module strings.

Definition HasSuffix (s suffix : string) : bool :=
  let n := String.length s in
  let k := String.length suffix in
  (k <=? n)%nat && String.eqb (substring (n - k) k s) suffix.

(** [strings.Split(s, "/")]: the fields between separators; never empty. *)
Fixpoint SplitSlash (s : string) : list string :=
  match s with
  | EmptyString => [EmptyString]
  | String c s' =>
      if Ascii.eqb c "/" then EmptyString :: SplitSlash s'
      else match SplitSlash s' with
           | e :: es => String c e :: es
           | [] => [String c EmptyString]
           end
  end.

Definition JoinSlash (elems : list string) : string :=
  String.concat "/" elems.

End strings.

Module filepath.

(** [filepath.Split]: cut after the final separator. *)
Fixpoint Split (path : string) : string * string :=
  match path with
  | EmptyString => (EmptyString, EmptyString)
  | String c rest =>
      let (dir, file) := Split rest in
      match dir with
      | EmptyString =>
          if Ascii.eqb c "/" then (String c EmptyString, file)
          else (EmptyString, String c file)
      | _ => (String c dir, file)
      end
  end.

Definition rooted (path : string) : bool :=
  match path with
  | String c _ => Ascii.eqb c "/"
  | EmptyString => false
  end.

(** One element of the path in [Clean]; [out] holds the elements kept so
    far, the most recent first. A [..] removes the element before it when
    that one is a real name; at the start of a relative path it is kept;
    at the start of a rooted path it is dropped. *)
Definition clean_elem (isRooted : bool) (out : list string) (e : string)
  : list string :=
  if String.eqb e "" then out
  else if String.eqb e "." then out
  else if String.eqb e ".." then
    match out with
    | top :: out' =>
        if negb (String.eqb top "..") then out'
        else if negb isRooted then ".." :: out
        else out
    | [] => if negb isRooted then [".."] else []
    end
  else e :: out.

Definition clean_elems (path : string) : list string :=
  rev (fold_left (clean_elem (rooted path)) (strings.SplitSlash path) []).

(** [filepath.Clean] on a system whose separator is the slash. *)
Definition Clean (path : string) : string :=
  if String.eqb path "" then "."
  else
    let out := clean_elems path in
    if rooted path then String "/" (strings.JoinSlash out)
    else match out with
         | [] => "."
         | _ => strings.JoinSlash out
         end.

(** The elements of a cleaned path. *)
Definition elems (path : string) : list string :=
  List.filter (fun e => negb (String.eqb e "")) (strings.SplitSlash path).

(** Drop the leading elements that two paths share. *)
Fixpoint strip_common (b t : list string) : list string * list string :=
  match b, t with
  | x :: b', y :: t' => if String.eqb x y then strip_common b' t' else (b, t)
  | _, _ => (b, t)
  end.

Definition updirs (b : list string) : list string :=
  List.map (fun _ => "..") b.

(** [filepath.Rel]; [None] is the error result. The two cleaned paths must
    be both rooted or both relative; their common leading elements are
    dropped; a [..] as the first differing element of the base cannot be
    undone; what is left of the base is climbed with [..] elements, then
    what is left of the target follows. *)
Definition Rel (basepath targpath : string) : option string :=
  let base := Clean basepath in
  let targ := Clean targpath in
  if String.eqb targ base then Some "."
  else
    let base := if String.eqb base "." then "" else base in
    if negb (Bool.eqb (rooted base) (rooted targ)) then None
    else
      let (b, t) := strip_common (elems base) (elems targ) in
      match b, t with
      | b0 :: _, _ :: _ =>
          if String.eqb b0 ".." then None
          else Some (strings.JoinSlash (updirs b ++ t))
      | _ :: _, [] => Some (strings.JoinSlash (updirs b))
      | [], _ => Some (strings.JoinSlash t)
      end.

End filepath.

(** ** Constants of the tool *)

(** Block size used during parallel compression of a single file. *)
Definition parallelBlockSize : Z := 1 * 1024 * 1024.

(** Minimum file size to use parallel compression. *)
Definition minParallelFileSize : Z := parallelBlockSize * 6.

(** Size of the ZIP compression window (32KB). *)
Definition windowSize : Z := 32 * 1024.

(** Go's [int64] arithmetic wraps around. *)
Definition int64 (x : Z) : Z := ((x + 2 ^ 63) mod 2 ^ 64 - 2 ^ 63)%Z.

(** ** The header of the zip library and the file modes of [os] *)

Module os.
Definition ModeDir : Z := 2 ^ 31.
Definition ModeSymlink : Z := 2 ^ 27.
Definition perm0700 : Z := 448.
End os.

Module zip.

(** [zip.Store] is method 0, the zero value; [zip.Deflate] is method 8. *)
Inductive method := Store | Deflate.

Record FileHeader := {
  Name : string;
  Method : method;
  CRC32 : Z;
  UncompressedSize64 : Z;
  Mode : Z;       (* what [SetMode] recorded; 0 when never set *)
  ModTime : Z     (* what [SetModTime] recorded *)
}.

(** The calls made on the [zip.Writer], in order. *)
Inductive call :=
| CreateCompressedHeader (fh : FileHeader)
| CreateHeader (fh : FileHeader)
| Write (data : bytes)
| CloseEntry
| Close.

End zip.

Global Instance method_eq_dec : EqDecision zip.method.
Proof. solve_decision. Defined.

(** ** Input files, readers and errors *)

(** The reads made on an open input file. *)
Inductive io_op :=
| OpCrc                 (* the sequential pass that feeds the CRC *)
| OpSeekCompress        (* [r.Seek(0, 0)] before compressing a small file *)
| OpCompress            (* the sequential pass that feeds the compressor *)
| OpSeekRaw             (* [r.Seek(0, 0)] before the raw copy *)
| OpReadRaw             (* [ioutil.ReadAll(r)] of the raw copy *)
| OpBlock (start : Z)   (* the section [start, start+parallelBlockSize) *)
| OpDict (start : Z).   (* the section [start-windowSize, start) *)

Global Instance io_op_eq_dec : EqDecision io_op.
Proof. solve_decision. Defined.

Inductive error :=
| ErrLstat (file : string)
| ErrNotFile (file : string)   (* "is not a file, directory, or symlink" *)
| ErrOpen (file : string)
| ErrReadlink (file : string)
| ErrRel (root file : string)
| ErrIO (op : io_op)
| ErrFlateLevel (level : Z).

(** A regular file: its bytes, whether [os.Open] fails, and for each read
    whether it fails and after how many delivered bytes. *)
Record file := {
  content : bytes;
  openFails : bool;
  fault : io_op -> option nat
}.

Definition fileSize (f : file) : Z := Z.of_nat (length (content f)).

(** What [os.Lstat] finds at a path. *)
Inductive node :=
| Dir
| Symlink (dest : option string)   (* the result of [os.Readlink] *)
| Regular (f : file)
| Other.                           (* device, pipe, socket *)

Definition filesystem := string -> option node.

(** An [io.Reader]: the bytes it would deliver and the fault that cuts it
    short. *)
Record reader := {
  rd_data : bytes;
  rd_fault : option nat;
  rd_op : io_op
}.

(** [io.NewSectionReader(r, off, n)]. *)
Definition NewSectionReader (f : file) (off n : Z) (op : io_op) : reader :=
  {| rd_data := firstn (Z.to_nat n) (skipn (Z.to_nat off) (content f));
     rd_fault := fault f op;
     rd_op := op |}.

(** The open file read from its start. *)
Definition wholeReader (f : file) (op : io_op) : reader :=
  {| rd_data := content f; rd_fault := fault f op; rd_op := op |}.

(** [ioutil.ReadAll]: what was read, and the error if any. *)
Definition ReadAll (r : reader) : bytes * option error :=
  match rd_fault r with
  | None => (rd_data r, None)
  | Some n => (firstn n (rd_data r), Some (ErrIO (rd_op r)))
  end.

(** [io.Copy(dst, r)]: everything or an error. *)
Definition Copy (r : reader) : bytes + error :=
  match rd_fault r with
  | None => inl (rd_data r)
  | Some _ => inr (ErrIO (rd_op r))
  end.

(** ** The compressor library *)

Inductive flateEnd :=
| EndClose    (* [fw.Close()]: the final block *)
| EndFlush.   (* [fw.Flush()]: a sync flush *)

(** [compress/flate]: which levels [NewWriter] accepts, and the raw deflate
    bytes of a writer at a level, primed with a dictionary or not, fed
    [data] and ended by [Close] or [Flush]. *)
Record flateLib := {
  levelOk : Z -> bool;
  deflate : Z -> option bytes -> bytes -> flateEnd -> bytes
}.

(** ** Entries and promises *)

(** [futureReaders]: [None] is the nil channel; otherwise one payload
    channel per block, each delivering its bytes or nothing (its producer
    failed). The channel is closed after the last element. *)
Record zipEntry := {
  fh : zip.FileHeader;
  futureReaders : option (list (option bytes))
}.

(** An element of [writeOps], a [chan *zipEntry] of capacity one. *)
Inductive promise :=
| Ready (ze : zipEntry)              (* filled and closed when enqueued *)
| Pending (ze : option zipEntry).    (* enqueued empty; a task fills it later,
                                        or never does *)

Definition promised (p : promise) : option zipEntry :=
  match p with
  | Ready ze => Some ze
  | Pending o => o
  end.

(** What a task ends with: its result, an error posted on [z.errors], or a
    run-time panic. *)
Inductive outcome (A : Type) :=
| Done (a : A)
| Failed (e : error)
| Crashed.
Arguments Done {A} a.
Arguments Failed {A} e.
Arguments Crashed {A}.

Definition delivered {A} (o : outcome A) : option A :=
  match o with Done a => Some a | _ => None end.

Definition posted {A} (o : outcome A) : list error :=
  match o with Failed e => [e] | _ => [] end.

Definition crashes {A} (o : outcome A) : bool :=
  match o with Crashed => true | _ => false end.

Record zipWriter := {
  time : Z;
  createdDirs : gmap string bool;
  directories : bool;
  compLevel : Z;
  errors : list error;       (* posted on [z.errors] by the tasks *)
  writeOps : list promise;   (* in submission order *)
  crashed : bool             (* a task panicked *)
}.

Definition enqueue (z : zipWriter) (p : promise) : zipWriter :=
  {| time := time z; createdDirs := createdDirs z;
     directories := directories z; compLevel := compLevel z;
     errors := errors z; writeOps := writeOps z ++ [p];
     crashed := crashed z |}.

Definition markDir (z : zipWriter) (dir : string) : zipWriter :=
  {| time := time z; createdDirs := <[dir := true]> (createdDirs z);
     directories := directories z; compLevel := compLevel z;
     errors := errors z; writeOps := writeOps z;
     crashed := crashed z |}.

Definition postErrors (z : zipWriter) (es : list error) (c : bool)
  : zipWriter :=
  {| time := time z; createdDirs := createdDirs z;
     directories := directories z; compLevel := compLevel z;
     errors := errors z ++ es; writeOps := writeOps z;
     crashed := crashed z || c |}.

(** [z.createdDirs[dir]]: a missing key reads as false. *)
Definition dirCreated (z : zipWriter) (dir : string) : bool :=
  default false (createdDirs z !! dir).

(** ** The planner and its tasks *)

Section Planner.

Variable flate : flateLib.
Variable fs : filesystem.

Definition Readlink (file : string) : option string :=
  match fs file with
  | Some (Symlink dest) => dest
  | _ => None
  end.

(** [compressBlock]: a writer primed with [dict] when it is not empty, a
    pooled or new writer otherwise (a pooled writer is reset, which makes
    it a new one); the input copied; then [Close] or [Flush]. *)
Definition compressBlock (z : zipWriter) (r : reader) (dict : bytes)
    (last : bool) : bytes + error :=
  if negb (levelOk flate (compLevel z)) then inr (ErrFlateLevel (compLevel z))
  else
    match Copy r with
    | inr e => inr e
    | inl data =>
        inl (deflate flate (compLevel z)
               (if (0 <? length dict)%nat then Some dict else None)
               data
               (if last then EndClose else EndFlush))
    end.

(** [crcFile]: the CRC over the whole file, then the entry is sent. *)
Definition crcFile (r : file) (ze : zipEntry) : outcome zipEntry :=
  match Copy (wholeReader r OpCrc) with
  | inr e => Failed e
  | inl data =>
      Done {| fh := {| zip.Name := zip.Name (fh ze);
                       zip.Method := zip.Method (fh ze);
                       zip.CRC32 := crc32.Sum32 data;
                       zip.UncompressedSize64 := zip.UncompressedSize64 (fh ze);
                       zip.Mode := zip.Mode (fh ze);
                       zip.ModTime := zip.ModTime (fh ze) |};
              futureReaders := futureReaders ze |}
  end.

Definition compressPartialFile (z : zipWriter) (r : reader) (dict : bytes)
    (last : bool) : outcome bytes :=
  match compressBlock z r dict last with
  | inr e => Failed e
  | inl result => Done result
  end.

(** [compressWholeFile]. The error of [compressBlock] is not looked at:
    when it fails, [compressed] is nil and [compressed.Len()] panics. *)
Definition compressWholeFile (z : zipWriter) (rel : string) (r : file)
  : outcome zipEntry :=
  match Copy (wholeReader r OpCrc) with
  | inr e => Failed e
  | inl data =>
      let crc := crc32.Sum32 data in
      let count := Z.of_nat (length data) in
      match fault r OpSeekCompress with
      | Some _ => Failed (ErrIO OpSeekCompress)
      | None =>
          match compressBlock z (wholeReader r OpCompress) [] true with
          | inr _ => Crashed
          | inl compressed =>
              if (Z.of_nat (length compressed) <? count)%Z then
                Done {| fh := {| zip.Name := rel;
                                 zip.Method := zip.Deflate;
                                 zip.CRC32 := crc;
                                 zip.UncompressedSize64 := count;
                                 zip.Mode := 0;
                                 zip.ModTime := time z |};
                        futureReaders := Some [Some compressed] |}
              else
                match fault r OpSeekRaw with
                | Some _ => Failed (ErrIO OpSeekRaw)
                | None =>
                    match ReadAll (wholeReader r OpReadRaw) with
                    | (_, Some e) => Failed e
                    | (buf, None) =>
                        Done {| fh := {| zip.Name := rel;
                                         zip.Method := zip.Store;
                                         zip.CRC32 := crc;
                                         zip.UncompressedSize64 := count;
                                         zip.Mode := 0;
                                         zip.ModTime := time z |};
                                futureReaders := Some [Some buf] |}
                    end
                end
          end
      end
  end.

Definition dirEntry (z : zipWriter) (dir : string) : zipEntry :=
  {| fh := {| zip.Name := dir;
              zip.Method := zip.Store;
              zip.CRC32 := 0;
              zip.UncompressedSize64 := 0;
              zip.Mode := Z.lor os.perm0700 os.ModeDir;
              zip.ModTime := time z |};
     futureReaders := None |}.

(** The loop of [writeDirectory]; [None] when the fuel runs out. *)
Fixpoint writeDirectoryLoop (fuel : nat) (z : zipWriter) (dir : string)
  : option zipWriter :=
  if negb (String.eqb dir "") && negb (String.eqb dir "./")
     && negb (dirCreated z dir)
  then
    match fuel with
    | O => None
    | S fuel' =>
        let z1 := markDir z dir in
        let z2 := enqueue z1 (Ready (dirEntry z1 dir)) in
        writeDirectoryLoop fuel' z2 (fst (filepath.Split dir))
    end
  else Some z.

(** [writeDirectory]; its error result is always nil. *)
Definition writeDirectory (z : zipWriter) (dir : string) : option zipWriter :=
  let dir :=
    if negb (String.eqb dir "") && negb (strings.HasSuffix dir "/")
    then dir ++ "/" else dir in
  writeDirectoryLoop (S (String.length dir)) z dir.

Definition parentDirs (z : zipWriter) (rel : string) : option zipWriter :=
  if directories z then writeDirectory z (fst (filepath.Split rel))
  else Some z.

Definition symlinkEntry (z : zipWriter) (rel dest : string) : zipEntry :=
  {| fh := {| zip.Name := rel;
              zip.Method := zip.Store;
              zip.CRC32 := 0;
              zip.UncompressedSize64 := 0;
              zip.Mode := Z.lor os.perm0700 os.ModeSymlink;
              zip.ModTime := time z |};
     futureReaders := Some [Some (bytes_of_string dest)] |}.

Definition writeSymlink (z : zipWriter) (rel file : string)
  : option (zipWriter * option error) :=
  match parentDirs z rel with
  | None => None
  | Some z1 =>
      match Readlink file with
      | None => Some (z1, Some (ErrReadlink file))
      | Some dest => Some (enqueue z1 (Ready (symlinkEntry z1 rel dest)), None)
      end
  end.

(** One block of the large-file path, as handed to
    [compressPartialFile]. *)
Record blockTask := {
  bt_start : Z;
  bt_reader : reader;
  bt_dict : bytes;
  bt_last : bool
}.

(** The block loop of [writeFile]; the fuel is the capacity of the
    [futureReaders] channel. *)
Fixpoint blockLoop (fuel : nat) (r : file) (size start : Z)
  : option (list blockTask) :=
  if (start <? size)%Z then
    match fuel with
    | O => None
    | S fuel' =>
        let sr := NewSectionReader r start parallelBlockSize (OpBlock start) in
        let last := negb (int64 (start + parallelBlockSize) <? size)%Z in
        let dict :=
          if (start >=? windowSize)%Z
          then fst (ReadAll (NewSectionReader r (start - windowSize)
                               windowSize (OpDict start)))
          else [] in
        match blockLoop fuel' r size (int64 (start + parallelBlockSize)) with
        | None => None
        | Some ts =>
            Some ({| bt_start := start; bt_reader := sr;
                     bt_dict := dict; bt_last := last |} :: ts)
        end
    end
  else Some [].

Definition blockTasks (r : file) : option (list blockTask) :=
  blockLoop (Z.to_nat (Z.quot (fileSize r) parallelBlockSize + 1))
    r (fileSize r) 0.

Definition runBlock (z : zipWriter) (t : blockTask) : outcome bytes :=
  compressPartialFile z (bt_reader t) (bt_dict t) (bt_last t).

(** [writeFile]; the result pairs the writer object with the error
    returned, and is [None] only if a loop ran out of fuel. *)
Definition writeFile (z : zipWriter) (rel file : string)
  : option (zipWriter * option error) :=
  match fs file with
  | None => Some (z, Some (ErrLstat file))
  | Some Dir =>
      if directories z then
        match writeDirectory z rel with
        | Some z1 => Some (z1, None)
        | None => None
        end
      else Some (z, None)
  | Some (Symlink _) => writeSymlink z rel file
  | Some Other => Some (z, Some (ErrNotFile file))
  | Some (Regular r) =>
      match parentDirs z rel with
      | None => None
      | Some z1 =>
          let header :=
            {| zip.Name := rel;
               zip.Method := zip.Deflate;
               zip.CRC32 := 0;
               zip.UncompressedSize64 := fileSize r;
               zip.Mode := 0;
               zip.ModTime := time z1 |} in
          if openFails r then
            Some (enqueue z1 (Pending None), Some (ErrOpen file))
          else if (fileSize r >=? minParallelFileSize)%Z then
            match blockTasks r with
            | None => None
            | Some tasks =>
                let results := List.map (runBlock z1) tasks in
                let ze := {| fh := header;
                             futureReaders :=
                               Some (List.map delivered results) |} in
                let crc := crcFile r ze in
                Some (postErrors (enqueue z1 (Pending (delivered crc)))
                        (posted crc ++ List.concat (List.map posted results))
                        false,
                      None)
            end
          else
            let whole := compressWholeFile z1 rel r in
            Some (postErrors (enqueue z1 (Pending (delivered whole)))
                    (posted whole) (crashes whole),
                  None)
      end
  end.

Definition writeRelFile (z : zipWriter) (root file : string)
  : option (zipWriter * option error) :=
  let file := filepath.Clean file in
  match filepath.Rel root file with
  | None => Some (z, Some (ErrRel root file))
  | Some rel => writeFile z rel file
  end.

End Planner.

(** ** A reference compressor: deflate with stored blocks only

    An instance of the library interface, used for the concrete runs: at
    every level it does what [compress/flate] does at level 0, the input
    cut into stored blocks of at most 65535 bytes, none of them final,
    followed by an empty stored block that is final after [Close] and not
    final after [Flush] (the sync marker). A dictionary changes nothing. *)

Module stored.

Definition byte_of (n : Z) : byte :=
  match Byte.of_N (Z.to_N n) with
  | Some b => b
  | None => x00
  end.

Definition le16 (n : Z) : bytes :=
  [byte_of (n mod 256); byte_of (n / 256 mod 256)].

Definition header (final : bool) (len : Z) : bytes :=
  ((if final then x01 else x00) :: le16 len ++ le16 (65535 - len))%list.

Definition maxStoreBlockSize : nat := Z.to_nat 65535.

Fixpoint blocks (fuel : nat) (data : bytes) : bytes :=
  match fuel, data with
  | S fuel', _ :: _ =>
      let chunk := firstn maxStoreBlockSize data in
      (header false (Z.of_nat (length chunk)) ++ chunk
         ++ blocks fuel' (skipn maxStoreBlockSize data))%list
  | _, _ => []
  end.

Definition encode (level : Z) (dict : option bytes) (data : bytes)
    (e : flateEnd) : bytes :=
  (blocks (length data) data
     ++ header (match e with EndClose => true | EndFlush => false end) 0)%list.

Definition lib : flateLib :=
  {| levelOk := fun level => (-2 <=? level)%Z && (level <=? 9)%Z;
     deflate := encode |}.

(** *** Inflating stored blocks

    The decoder for streams of stored blocks: block header, LEN, NLEN,
    then LEN bytes; it stops at the end of the block marked final. *)

Inductive inflateState :=
| AtHeader
| AtLen0 (final : bool)
| AtLen1 (final : bool) (l0 : Z)
| AtNlen0 (final : bool) (len : Z)
| AtNlen1 (final : bool) (len n0 : Z)
| InData (final : bool) (todo : nat).

Fixpoint inflateFrom (st : inflateState) (input : bytes) : option bytes :=
  match input with
  | [] => None
  | b :: rest =>
      match st with
      | AtHeader =>
          if (byte_val b =? 0)%Z then inflateFrom (AtLen0 false) rest
          else if (byte_val b =? 1)%Z then inflateFrom (AtLen0 true) rest
          else None
      | AtLen0 f => inflateFrom (AtLen1 f (byte_val b)) rest
      | AtLen1 f l0 => inflateFrom (AtNlen0 f (l0 + 256 * byte_val b)) rest
      | AtNlen0 f len => inflateFrom (AtNlen1 f len (byte_val b)) rest
      | AtNlen1 f len n0 =>
          if (len + (n0 + 256 * byte_val b) =? 65535)%Z then
            match Z.to_nat len with
            | O => if f then Some [] else inflateFrom AtHeader rest
            | S k => inflateFrom (InData f (S k)) rest
            end
          else None
      | InData f todo =>
          match todo with
          | O => None
          | S O =>
              option_map (cons b)
                (if f then Some [] else inflateFrom AtHeader rest)
          | S k => option_map (cons b) (inflateFrom (InData f k) rest)
          end
      end
  end.

Definition inflate (stream : bytes) : option bytes :=
  inflateFrom AtHeader stream.

End stored.

Definition newZipWriter (dirs : bool) (level : Z) : zipWriter :=
  {| time := 1230768000;   (* 2009-01-01 00:00:00 UTC *)
     createdDirs := ∅;
     directories := dirs;
     compLevel := level;
     errors := [];
     writeOps := [];
     crashed := false |}.

Definition plainFile (data : bytes) : file :=
  {| content := data; openFails := false; fault := fun _ => None |}.

Definition entryNames (z : zipWriter) : list (option string) :=
  List.map (fun p => option_map (fun ze => zip.Name (fh ze)) (promised p))
    (writeOps z).

Definition helloFile : file := plainFile (bytes_of_string "hello").

Definition emptyFile : file := plainFile [].

(** A small tree: [e.txt] (empty), [a/b/c.txt] and [b/c.txt] (five bytes),
    the directory [a] and the link [link -> target/path]. *)
Definition fsDemo : filesystem := fun path =>
  if String.eqb path "a/b/c.txt" then Some (Regular helloFile)
  else if String.eqb path "b/c.txt" then Some (Regular helloFile)
  else if String.eqb path "e.txt" then Some (Regular emptyFile)
  else if String.eqb path "link" then Some (Symlink (Some "target/path"))
  else if String.eqb path "a" then Some Dir
  else None.

(** ** The writer loop of [write] *)

(** What [currentWriter] holds. *)
Inductive sink :=
| CompressedSink   (* from [CreateCompressedHeader]; [Close] ends the entry *)
| PlainSink.       (* [nopCloser] around [CreateHeader]; [Close] does nothing *)

(** The variables of the loop, the part of [z.writeOps] not yet received,
    and the calls made so far on the [zip.Writer]. *)
Record writerState := {
  queue : list promise;
  currentWriteOpChan : option promise;
  currentWriter : option sink;
  currentReaders : option (list (option bytes));
  currentReader : option (option bytes);
  done : bool;
  zipw : list zip.call
}.

Definition initWriter (ops : list promise) : writerState :=
  {| queue := ops; currentWriteOpChan := None; currentWriter := None;
     currentReaders := None; currentReader := None; done := false;
     zipw := [] |}.

Definition closeSink (w : option sink) : list zip.call :=
  match w with
  | Some CompressedSink => [zip.CloseEntry]
  | _ => []
  end.

(** The one data channel the [select] listens on, chosen by the chain of
    tests at the head of the loop body. *)
Inductive selected :=
| SelReader (c : option bytes)
| SelReaders (cs : list (option bytes))
| SelWriteOp (p : promise)
| SelWriteOps.

Definition select (s : writerState) : selected :=
  match currentReader s with
  | Some c => SelReader c
  | None =>
      match currentReaders s with
      | Some cs => SelReaders cs
      | None =>
          match currentWriteOpChan s with
          | Some p => SelWriteOp p
          | None => SelWriteOps
          end
      end
  end.

Definition openSink (op : zipEntry) : sink * zip.call :=
  if decide (zip.Method (fh op) = zip.Deflate)
  then (CompressedSink, zip.CreateCompressedHeader (fh op))
  else (PlainSink, zip.CreateHeader (fh op)).

(** One iteration of the loop that receives from the data channel;
    [None] when nothing will ever arrive on it. *)
Definition recv (s : writerState) : option writerState :=
  match select s with
  | SelWriteOps =>
      match queue s with
      | p :: rest =>
          Some {| queue := rest; currentWriteOpChan := Some p;
                  currentWriter := currentWriter s;
                  currentReaders := currentReaders s;
                  currentReader := currentReader s;
                  done := done s; zipw := zipw s |}
      | [] =>
          Some {| queue := []; currentWriteOpChan := None;
                  currentWriter := currentWriter s;
                  currentReaders := currentReaders s;
                  currentReader := currentReader s;
                  done := true; zipw := zipw s |}
      end
  | SelWriteOp p =>
      match promised p with
      | None => None
      | Some op =>
          let (w, c) := openSink op in
          match futureReaders op with
          | None =>
              Some {| queue := queue s; currentWriteOpChan := None;
                      currentWriter := None; currentReaders := None;
                      currentReader := currentReader s;
                      done := done s;
                      zipw := zipw s ++ [c] ++ closeSink (Some w) |}
          | Some rs =>
              Some {| queue := queue s; currentWriteOpChan := None;
                      currentWriter := Some w; currentReaders := Some rs;
                      currentReader := currentReader s;
                      done := done s; zipw := zipw s ++ [c] |}
          end
      end
  | SelReaders cs =>
      match cs with
      | [] =>
          Some {| queue := queue s;
                  currentWriteOpChan := currentWriteOpChan s;
                  currentWriter := None; currentReaders := None;
                  currentReader := None;
                  done := done s;
                  zipw := zipw s ++ closeSink (currentWriter s) |}
      | c :: cs' =>
          Some {| queue := queue s;
                  currentWriteOpChan := currentWriteOpChan s;
                  currentWriter := currentWriter s;
                  currentReaders := Some cs';
                  currentReader := Some c;
                  done := done s; zipw := zipw s |}
      end
  | SelReader c =>
      match c with
      | None => None
      | Some data =>
          Some {| queue := queue s;
                  currentWriteOpChan := currentWriteOpChan s;
                  currentWriter := currentWriter s;
                  currentReaders := currentReaders s;
                  currentReader := None;
                  done := done s; zipw := zipw s ++ [zip.Write data] |}
      end
  end.

(** A turn of the loop: the loop has not ended and the data channel
    delivers. (An error received from [z.errors] ends the run instead.) *)
Definition turn (s s' : writerState) : Prop :=
  done s = false ∧ recv s = Some s'.

(** The states the loop can be in for a given content of [z.writeOps]. *)
Definition reachable (ops : list promise) (s : writerState) : Prop :=
  rtc turn (initWriter ops) s.

(** The calls that write one entry completely. *)
Definition payloads (rs : list (option bytes)) : list zip.call :=
  List.map zip.Write (omap id rs).

Definition entryCalls (op : zipEntry) : list zip.call :=
  let (w, c) := openSink op in
  match futureReaders op with
  | None => [c] ++ closeSink (Some w)
  | Some rs => [c] ++ payloads rs ++ closeSink (Some w)
  end.

Definition promiseCalls (p : promise) : list zip.call :=
  match promised p with
  | Some op => entryCalls op
  | None => []
  end.

(** The result of [write]. *)
Inductive writeResult :=
| Archive (log : list zip.call)   (* nil: the archive is complete *)
| WriteError (e : error)          (* the error returned; the output is removed *)
| Stuck                           (* waiting for ever *)
| Panicked.                       (* a task brought the process down *)

(** The loop run by one schedule: data is received while there is some,
    an error when the data channel will never deliver; after the loop, the
    last look at [z.errors]. *)
Fixpoint writerLoop (fuel : nat) (errs : list error) (s : writerState)
  : option writeResult :=
  if done s then
    Some (match errs with
          | e :: _ => WriteError e
          | [] => Archive (zipw s ++ [zip.Close])
          end)
  else
    match fuel with
    | O => None
    | S fuel' =>
        match recv s with
        | Some s' => writerLoop fuel' errs s'
        | None =>
            Some (match errs with
                  | e :: _ => WriteError e
                  | [] => Stuck
                  end)
        end
    end.

(** An upper bound on the turns of the loop. *)
Definition promiseTurns (p : promise) : nat :=
  match promised p with
  | Some op =>
      match futureReaders op with
      | Some rs => 3 + 2 * length rs
      | None => 2
      end
  | None => 2
  end.

Definition writerFuel (ops : list promise) : nat :=
  S (list_sum (List.map promiseTurns ops)).

Record fileArg := {
  relativeRoot : string;
  argFile : string
}.

Section Write.

Variable flate : flateLib.
Variable fs : filesystem.

(** The planning goroutine of [write] over the [-f] arguments (the list
    files of [-l] expand to the same calls). It stops at the first error. *)
Fixpoint planFiles (z : zipWriter) (files : list fileArg)
  : option (zipWriter * option error) :=
  match files with
  | [] => Some (z, None)
  | f :: rest =>
      match writeRelFile flate fs z (relativeRoot f) (argFile f) with
      | None => None
      | Some (z1, Some e) => Some (z1, Some e)
      | Some (z1, None) => planFiles z1 rest
      end
  end.

Definition plan (z : zipWriter) (files : list fileArg) (manifest : string)
  : option zipWriter :=
  match planFiles z files with
  | None => None
  | Some (z1, Some e) => Some (postErrors z1 [e] false)
  | Some (z1, None) =>
      if negb (String.eqb manifest "") then
        match writeFile flate fs z1 "META-INF/MANIFEST.MF" manifest with
        | None => None
        | Some (z2, Some e) => Some (postErrors z2 [e] false)
        | Some (z2, None) => Some z2
        end
      else Some z1
  end.

(** [write]: the plan, then the writer loop over what was submitted. *)
Definition write (z : zipWriter) (files : list fileArg) (manifest : string)
  : option writeResult :=
  match plan z files manifest with
  | None => None
  | Some z1 =>
      if crashed z1 then Some Panicked
      else writerLoop (writerFuel (writeOps z1)) (errors z1)
             (initWriter (writeOps z1))
  end.

End Write.

(** ** Vocabulary of the statements *)

(** The name [writeDirectory] works on: its argument with a slash at the
    end. *)
Definition dirName (dir : string) : string :=
  if negb (String.eqb dir "") && negb (strings.HasSuffix dir "/")
  then dir ++ "/" else dir.

(** The test of the loop of [writeDirectory]. *)
Definition dirWanted (z : zipWriter) (dir : string) : bool :=
  negb (String.eqb dir "") && negb (String.eqb dir "./")
  && negb (dirCreated z dir).

(** No read of the file fails. *)
Definition noFaults (r : file) : Prop := ∀ op, fault r op = None.

Definition entryMethods (z : zipWriter) : list (option zip.method) :=
  List.map (fun p => option_map (fun ze => zip.Method (fh ze)) (promised p))
    (writeOps z).

(** What one turn of the loop of [writeDirectory] does. *)
Definition addDir (z : zipWriter) (dir : string) : zipWriter :=
  enqueue (markDir z dir) (Ready (dirEntry (markDir z dir) dir)).

Definition isSymlinkMode (m : Z) : bool :=
  negb (Z.land m os.ModeSymlink =? 0)%Z.

(** The names given to [CreateHeader] and [CreateCompressedHeader]. *)
Definition archiveNames (log : list zip.call) : list string :=
  omap (fun c => match c with
                 | zip.CreateCompressedHeader h | zip.CreateHeader h =>
                     Some (zip.Name h)
                 | _ => None
                 end) log.

Definition fileArgHere (file : string) : fileArg :=
  {| relativeRoot := "."; argFile := file |}.

Fixpoint noSlash (e : string) : bool :=
  match e with
  | EmptyString => true
  | String c e' => negb (Ascii.eqb c "/") && noSlash e'
  end.

(** A path element that names something: not empty, not [.], not [..],
    and without a separator. *)
Definition realName (e : string) : Prop :=
  e ≠ "" ∧ e ≠ "." ∧ e ≠ ".." ∧ noSlash e = true.

(** The elements of a name that [filepath.Rel] returns: [..] elements come
    first, then real names; or they end in the single element [.] when the
    target is the current directory. *)
Inductive relShape : list string → Prop :=
| shape_names (rs : list string) : Forall realName rs → relShape rs
| shape_dot : relShape ["."]
| shape_up (l : list string) : relShape l → relShape (".." :: l).

(** No element of the name is [.] or [..]. *)
Definition noDotElems (name : string) : bool :=
  forallb (fun e => negb (String.eqb e ".") && negb (String.eqb e ".."))
    (strings.SplitSlash name).

(** An element that survives a split of its join. *)
Definition okElem (e : string) : Prop := e ≠ "" ∧ noSlash e = true.

(** The stack of [Clean]: real names above, [..] elements at the bottom. *)
Definition stackOk (st : list string) : Prop :=
  ∃ rs k, st = (rs ++ repeat ".." k)%list ∧ Forall realName rs.

(** The names [writeFile] gives to what it submits for [rel]: the name
    itself for a file or a link, the name with a slash for a directory, the
    parent with a slash for the directory entry of the parent. *)
Definition nameFor (rel : string) (name : string) : Prop :=
  name = rel ∨ name = dirName rel
  ∨ name = dirName (fst (filepath.Split rel)).

(** The task of the block that starts at [start]. *)
Definition blockAt (r : file) (start : Z) : blockTask :=
  {| bt_start := start;
     bt_reader := NewSectionReader r start parallelBlockSize (OpBlock start);
     bt_dict :=
       if (start >=? windowSize)%Z
       then fst (ReadAll (NewSectionReader r (start - windowSize)
                            windowSize (OpDict start)))
       else [];
     bt_last := negb (start + parallelBlockSize <? fileSize r)%Z |}.

(** The tasks of [n] consecutive blocks. *)
Fixpoint blocksFrom (r : file) (n : nat) (start : Z) : list blockTask :=
  match n with
  | O => []
  | S n' => blockAt r start :: blocksFrom r n' (start + parallelBlockSize)
  end.

(** The number of blocks of a file. *)
Definition blockCount (r : file) : nat :=
  Z.to_nat ((fileSize r + parallelBlockSize - 1) / parallelBlockSize).

(** The last [n] bytes of [l]. *)
Definition lastBytes (n : nat) (l : bytes) : bytes :=
  skipn (length l - n) l.

(** The dictionary handed to the compressor library. *)
Definition dictArg (dict : bytes) : option bytes :=
  if (0 <? length dict)%nat then Some dict else None.

(** A file of 6 MiB of zero bytes, the smallest that takes the large-file
    path. *)
Definition bigFile : file :=
  plainFile (repeat x00 (Z.to_nat 6291456)).

(** The same file when the read of the dictionary of its second block
    fails before delivering a byte; every other read succeeds. *)
Definition bigFileDictFault : file :=
  {| content := repeat x00 (Z.to_nat 6291456);
     openFails := false;
     fault := fun op =>
       if decide (op = OpDict 1048576) then Some 0 else None |}.

Definition fsBig (r : file) : filesystem := fun path =>
  if String.eqb path "big.bin" then Some (Regular r) else None.

(** The payload channel the loop is waiting on, if any. *)
Definition awaited (s : writerState) : list (option bytes) :=
  match currentReader s with
  | Some c => [c]
  | None => []
  end.

(** The three situations of the loop: between entries; a promise taken
    from the queue, its header awaited; an entry open, with the payloads
    [consumed] written and [remaining] still to come. In each, the entries
    of [processed] are written completely and in order, and nothing of the
    promises still in the queue. *)
Inductive writerInv (ops : list promise) (s : writerState) : Prop :=
| inv_idle (processed : list promise) :
    ops = (processed ++ queue s)%list →
    currentWriteOpChan s = None →
    currentWriter s = None →
    currentReaders s = None →
    currentReader s = None →
    zipw s = flat_map promiseCalls processed →
    writerInv ops s
| inv_header (processed : list promise) (p : promise) :
    ops = (processed ++ p :: queue s)%list →
    currentWriteOpChan s = Some p →
    currentWriter s = None →
    currentReaders s = None →
    currentReader s = None →
    zipw s = flat_map promiseCalls processed →
    writerInv ops s
| inv_entry (processed : list promise) (p : promise) (op : zipEntry)
    (w : sink) (c : zip.call) (consumed : list bytes)
    (remaining : list (option bytes)) :
    ops = (processed ++ p :: queue s)%list →
    promised p = Some op →
    openSink op = (w, c) →
    futureReaders op
    = Some (List.map Some consumed ++ awaited s ++ remaining)%list →
    currentWriteOpChan s = None →
    currentWriter s = Some w →
    currentReaders s = Some remaining →
    zipw s = (flat_map promiseCalls processed ++ [c]
              ++ List.map zip.Write consumed)%list →
    writerInv ops s.

(** A promise whose header and payloads all arrive. *)
Definition fullyDelivered (p : promise) : Prop :=
  ∃ op, promised p = Some op
        ∧ (futureReaders op = None
           ∨ ∃ datas, futureReaders op = Some (List.map Some datas)).

(** The loop between two entries. *)
Definition idleState (q : list promise) (d : bool) (log : list zip.call)
  : writerState :=
  {| queue := q; currentWriteOpChan := None; currentWriter := None;
     currentReaders := None; currentReader := None; done := d;
     zipw := log |}.

(** The loop inside an entry, between two payloads. *)
Definition entryState (q : list promise) (w : sink)
    (rs : list (option bytes)) (log : list zip.call) : writerState :=
  {| queue := q; currentWriteOpChan := None; currentWriter := Some w;
     currentReaders := Some rs; currentReader := None; done := false;
     zipw := log |}.

Definition demoOps : list promise :=
  [Ready (symlinkEntry (newZipWriter false 5) "link" "target/path");
   Ready (dirEntry (newZipWriter false 5) "a/")].

(** The loop after three turns on [demoOps]: the header of the link is
    written, its one payload is awaited. *)
Definition demoState : writerState :=
  {| queue := [Ready (dirEntry (newZipWriter false 5) "a/")];
     currentWriteOpChan := None;
     currentWriter := Some PlainSink;
     currentReaders := Some [];
     currentReader := Some (Some (bytes_of_string "target/path"));
     done := false;
     zipw := [zip.CreateHeader
                (fh (symlinkEntry (newZipWriter false 5) "link" "target/path"))] |}.

(** The compressed bytes of a block whose read succeeds. *)
Definition blockPayload (flate : flateLib) (z : zipWriter) (t : blockTask)
  : bytes :=
  deflate flate (compLevel z) (dictArg (bt_dict t)) (rd_data (bt_reader t))
    (if bt_last t then EndClose else EndFlush).

(** Every read succeeds, except perhaps those of dictionaries. *)
Definition onlyDictFaults (r : file) : Prop :=
  fault r OpCrc = None ∧ ∀ start, fault r (OpBlock start) = None.

(** The bytes a block task reads. *)
Definition blockData (t : blockTask) : bytes := rd_data (bt_reader t).

(** The size of every regular file is far below the range of [int64]. *)
Definition sizesBounded (fs : filesystem) : Prop :=
  ∀ path r, fs path = Some (Regular r) → (fileSize r < 2 ^ 62)%Z.

Definition isDirMode (m : Z) : bool :=
  negb (Z.land m os.ModeDir =? 0)%Z.

(** The names of the directory entries among the submitted promises. *)
Definition dirNames (ops : list promise) : list string :=
  omap (fun p => match promised p with
                 | Some ze =>
                     if isDirMode (zip.Mode (fh ze))
                     then Some (zip.Name (fh ze)) else None
                 | None => None
                 end) ops.

(** No directory entry is submitted twice, and every one submitted is
    recorded in [createdDirs]. *)
Definition dirsOnce (z : zipWriter) : Prop :=
  NoDup (dirNames (writeOps z))
  ∧ ∀ d, d ∈ dirNames (writeOps z) → dirCreated z d = true.

(** A promise that is not a directory entry. *)
Definition notDir (p : promise) : Prop :=
  ∀ ze, promised p = Some ze → isDirMode (zip.Mode (fh ze)) = false.

(** ** List files and the whole plan *)

Definition newline : ascii := ascii_of_nat 10.

(** [strings.Split(s, "\n")]. *)
Fixpoint SplitLines (s : string) : list string :=
  match s with
  | EmptyString => [EmptyString]
  | String c s' =>
      if Ascii.eqb c newline then EmptyString :: SplitLines s'
      else match SplitLines s' with
           | e :: es => String c e :: es
           | [] => [String c EmptyString]
           end
  end.

Section ListFiles.

Variable flate : flateLib.
Variable fs : filesystem.

(** [strings.TrimSpace] and [ioutil.ReadFile], the latter with the error
    it reports. *)
Variable TrimSpace : string → string.
Variable ReadFile : string → string + error.

(** The loop of [writeListFile] over the lines of the list. *)
Fixpoint writeListLines (z : zipWriter) (root : string) (files : list string)
  : option (zipWriter * option error) :=
  match files with
  | [] => Some (z, None)
  | file :: rest =>
      let file := TrimSpace file in
      if String.eqb file "" then writeListLines z root rest
      else
        match writeRelFile flate fs z root file with
        | None => None
        | Some (z1, Some e) => Some (z1, Some e)
        | Some (z1, None) => writeListLines z1 root rest
        end
  end.

Definition writeListFile (z : zipWriter) (listFile : fileArg)
  : option (zipWriter * option error) :=
  match ReadFile (argFile listFile) with
  | inr e => Some (z, Some e)
  | inl list => writeListLines z (relativeRoot listFile) (SplitLines list)
  end.

(** The first loop of the planning goroutine of [write]. *)
Fixpoint planLists (z : zipWriter) (listFiles : list fileArg)
  : option (zipWriter * option error) :=
  match listFiles with
  | [] => Some (z, None)
  | l :: rest =>
      match writeListFile z l with
      | None => None
      | Some (z1, Some e) => Some (z1, Some e)
      | Some (z1, None) => planLists z1 rest
      end
  end.

(** The planning goroutine of [write]: the list files, the files, the
    manifest; the first error is posted and ends it. *)
Definition planAll (z : zipWriter) (listFiles files : list fileArg)
    (manifest : string) : option zipWriter :=
  match planLists z listFiles with
  | None => None
  | Some (z1, Some e) => Some (postErrors z1 [e] false)
  | Some (z1, None) => plan flate fs z1 files manifest
  end.

(** [write] with its list files. *)
Definition writeAll (z : zipWriter) (listFiles files : list fileArg)
    (manifest : string) : option writeResult :=
  match planAll z listFiles files manifest with
  | None => None
  | Some z1 =>
      if crashed z1 then Some Panicked
      else writerLoop (writerFuel (writeOps z1)) (errors z1)
             (initWriter (writeOps z1))
  end.

End ListFiles.

(** [strings.TrimSpace] on text whose white space is ASCII: space, tab,
    line feed, vertical tab, form feed, carriage return. *)
Definition isAsciiSpace (c : ascii) : bool :=
  let n := nat_of_ascii c in
  (n =? 32)%nat || ((9 <=? n)%nat && (n <=? 13)%nat).

Fixpoint trimLeft (s : string) : string :=
  match s with
  | String c s' => if isAsciiSpace c then trimLeft s' else s
  | EmptyString => EmptyString
  end.

Fixpoint trimRight (s : string) : string :=
  match s with
  | String c s' =>
      match trimRight s' with
      | EmptyString => if isAsciiSpace c then EmptyString else String c EmptyString
      | t => String c t
      end
  | EmptyString => EmptyString
  end.

Definition asciiTrimSpace (s : string) : string := trimRight (trimLeft s).

(** ** The flags [-C], [-f] and [-l] *)

(** [fileArgs.Set], reading the current value of [-C]; [None] is the error
    "must pass -C before -f". *)
Definition fileArgs_Set (root : string) (l : list fileArg) (s : string)
  : option (list fileArg) :=
  if String.eqb root "" then None
  else Some (l ++ [{| relativeRoot := filepath.Clean root; argFile := s |}])%list.

(** The flag variables [relativeRoot], [listFiles] and [files]. *)
Record flagValues := {
  flagRelativeRoot : string;
  flagListFiles : list fileArg;
  flagFiles : list fileArg
}.

Definition noFlags : flagValues :=
  {| flagRelativeRoot := ""; flagListFiles := []; flagFiles := [] |}.

(** One occurrence of a flag on the command line. *)
Inductive flagOcc :=
| FlagC (v : string)
| FlagF (v : string)
| FlagL (v : string).

(** What the flag package does with one occurrence: [-C] stores its value,
    [-f] and [-l] call [Set] on their list. *)
Definition setFlag (st : flagValues) (o : flagOcc) : option flagValues :=
  match o with
  | FlagC v =>
      Some {| flagRelativeRoot := v; flagListFiles := flagListFiles st;
              flagFiles := flagFiles st |}
  | FlagF v =>
      match fileArgs_Set (flagRelativeRoot st) (flagFiles st) v with
      | Some l =>
          Some {| flagRelativeRoot := flagRelativeRoot st;
                  flagListFiles := flagListFiles st; flagFiles := l |}
      | None => None
      end
  | FlagL v =>
      match fileArgs_Set (flagRelativeRoot st) (flagListFiles st) v with
      | Some l =>
          Some {| flagRelativeRoot := flagRelativeRoot st;
                  flagListFiles := l; flagFiles := flagFiles st |}
      | None => None
      end
  end.

(** The occurrences in command-line order; the first error ends the
    parse. *)
Fixpoint parseFlags (st : flagValues) (occs : list flagOcc)
  : option flagValues :=
  match occs with
  | [] => Some st
  | o :: rest =>
      match setFlag st o with
      | Some st1 => parseFlags st1 rest
      | None => None
      end
  end.

(** ** More vocabulary *)



(** An upper bound on the turns the loop still has to make. *)
Definition turnsLeft (s : writerState) : nat :=
  if done s then 0
  else
    (1 + list_sum (List.map promiseTurns (queue s))
     + match currentWriteOpChan s with
       | Some p => promiseTurns p - 1
       | None => 0
       end
     + match currentReaders s with
       | Some rs => 2 * length rs + 1
       | None => 0
       end
     + match currentReader s with
       | Some _ => 1
       | None => 0
       end)%nat.


(** Every entry submitted carries the time of the writer object. *)
Definition timesFixed (t : Z) (z : zipWriter) : Prop :=
  time z = t
  ∧ Forall (fun p => ∀ ze, promised p = Some ze → zip.ModTime (fh ze) = t)
      (writeOps z).

(** A list file and a way to read it, for the concrete runs. *)
Definition readDemo : string → string + error := fun path =>
  if String.eqb path "list.txt"
  then inl ("e.txt" +:+ String newline ("  link " +:+ String newline
            (String newline "a/b/c.txt")))
  else inr (ErrOpen path).

(** No directory entry is submitted when directories are off. *)
Definition noDirs (z : zipWriter) : Prop :=
  directories z = false ∧ dirNames (writeOps z) = [].

(** The offsets of the blocks of a file. *)
Definition blockStarts (r : file) : list Z :=
  List.map (fun k => (Z.of_nat k * parallelBlockSize)%Z)
    (seq 0 (blockCount r)).

(** Whether a read of the file fails. *)
Definition readFails (r : file) (op : io_op) : bool :=
  match fault r op with
  | Some _ => true
  | None => false
  end.

(** The reads a large file is compressed from: the CRC pass and the
    blocks. *)
Definition largeReads (r : file) : list io_op :=
  OpCrc :: List.map OpBlock (blockStarts r).

(** The 6 MiB file when the reads of its second and fourth blocks fail. *)
Definition bigFileBlockFault : file :=
  {| content := repeat x00 (Z.to_nat 6291456);
     openFails := false;
     fault := fun op =>
       if decide (op = OpBlock 1048576) then Some 0
       else if decide (op = OpBlock 3145728) then Some 17
       else None |}.

(** The value of [-C] after the occurrences [pre], from the value [root]. *)
Definition rootAfter (root : string) (pre : list flagOcc) : string :=
  fold_left (fun r o => match o with FlagC v => v | _ => r end) pre root.

(** The values given to [-f] and to [-l], in command-line order. *)
Definition flagFValues (occs : list flagOcc) : list string :=
  flat_map (fun o => match o with FlagF v => [v] | _ => [] end) occs.

Definition flagLValues (occs : list flagOcc) : list string :=
  flat_map (fun o => match o with FlagL v => [v] | _ => [] end) occs.

(** The lines of a list file that name a file. *)
Definition listedFiles (TrimSpace : string → string) (root text : string)
  : list fileArg :=
  List.map (fun f => {| relativeRoot := root; argFile := f |})
    (List.filter (fun f => negb (String.eqb f ""))
       (List.map TrimSpace (SplitLines text))).

(** The root made of the elements [rs]; the current directory when there
    is none. *)
Definition rootPath (rs : list string) : string :=
  match rs with
  | [] => "."
  | _ => strings.JoinSlash rs
  end.

(** * The ARM toolchain ([cc/config/arm_device.go]) *)

Module arm.

(** The two fields of [android.Arch] that the factory reads. *)
Record Arch := {
  ArchVariant : string;
  CpuVariant : string
}.

Record toolchainArm := {
  ldflags : string;
  toolchainCflags : string;
  toolchainClangCflags : string
}.

(** [m[k]] on a [map[string]string]: a missing key reads as the empty
    string. *)
Definition at_key (m : gmap string string) (k : string) : string :=
  default "" (m !! k).

Definition armArchVariantCflagsVar : gmap string string :=
  list_to_map
    [("armv5te", "${config.ArmArmv5TECflags}");
     ("armv7-a", "${config.ArmArmv7ACflags}");
     ("armv7-a-neon", "${config.ArmArmv7ANeonCflags}")].

Definition armCpuVariantCflagsVar : gmap string string :=
  list_to_map
    [("", "${config.ArmGenericCflags}");
     ("cortex-a7", "${config.ArmCortexA7Cflags}");
     ("cortex-a8", "${config.ArmCortexA8Cflags}");
     ("cortex-a15", "${config.ArmCortexA15Cflags}");
     ("cortex-a53", "${config.ArmCortexA7Cflags}");
     ("cortex-a53.a57", "${config.ArmCortexA7Cflags}");
     ("krait", "${config.ArmKraitCflags}");
     ("denver", "${config.ArmCortexA15Cflags}")].

Definition armClangArchVariantCflagsVar : gmap string string :=
  list_to_map
    [("armv5te", "${config.ArmClangArmv5TECflags}");
     ("armv7-a", "${config.ArmClangArmv7ACflags}");
     ("armv7-a-neon", "${config.ArmClangArmv7ANeonCflags}")].

Definition armClangCpuVariantCflagsVar : gmap string string :=
  list_to_map
    [("", "${config.ArmClangGenericCflags}");
     ("cortex-a7", "${config.ArmClangCortexA7Cflags}");
     ("cortex-a8", "${config.ArmClangCortexA8Cflags}");
     ("cortex-a15", "${config.ArmClangCortexA15Cflags}");
     ("cortex-a53", "${config.ArmClangCortexA7Cflags}");
     ("cortex-a53.a57", "${config.ArmClangCortexA7Cflags}");
     ("krait", "${config.ArmClangKraitCflags}");
     ("denver", "${config.ArmClangCortexA15Cflags}")].

(** [strings.Join(l, " ")]. *)
Definition JoinSpace (l : list string) : string := String.concat " " l.

Section Factory.

(** [variantOrDefault] is defined in another file of the package. *)
Variable variantOrDefault : gmap string string → string → string.

(** [armToolchainFactory]; [None] is the panic on an unknown architecture
    variant. *)
Definition armToolchainFactory (arch : Arch) : option toolchainArm :=
  let toolchainCflags :=
    ["${config.ArmToolchainCflags}";
     at_key armArchVariantCflagsVar (ArchVariant arch)] in
  let toolchainClangCflags :=
    ["${config.ArmToolchainClangCflags}";
     at_key armClangArchVariantCflagsVar (ArchVariant arch)] in
  let result (fixCortexA8 : string) (cflags clangCflags : list string) :=
    Some {| toolchainCflags := JoinSpace cflags;
            ldflags := JoinSpace ["${config.ArmLdflags}"; fixCortexA8];
            toolchainClangCflags := JoinSpace clangCflags |} in
  if String.eqb (ArchVariant arch) "armv7-a-neon" then
    let fixCortexA8 :=
      if String.eqb (CpuVariant arch) "cortex-a8"
         || String.eqb (CpuVariant arch) ""
      then "-Wl,--fix-cortex-a8"
      else "-Wl,--no-fix-cortex-a8" in
    result fixCortexA8
      (toolchainCflags
       ++ [variantOrDefault armCpuVariantCflagsVar (CpuVariant arch)])%list
      (toolchainClangCflags
       ++ [variantOrDefault armClangCpuVariantCflagsVar (CpuVariant arch)])%list
  else if String.eqb (ArchVariant arch) "armv7-a" then
    result "" toolchainCflags toolchainClangCflags
  else if String.eqb (ArchVariant arch) "armv5te" then
    result "" toolchainCflags toolchainClangCflags
  else None.

End Factory.

(** The architecture variants the factory knows. *)
Definition knownVariants : list string :=
  ["armv5te"; "armv7-a"; "armv7-a-neon"].

End arm.

(** * Properties *)

(** ** The library models on known values *)

Example crc_check : crc32.Sum32 (bytes_of_string "123456789") = 0xCBF43926%Z.
Proof. vm_compute. reflexivity. Qed.

Example split_file : filepath.Split "a/b/c.txt" = ("a/b/", "c.txt").
Proof. reflexivity. Qed.

Example split_dir : filepath.Split "a/b/" = ("a/b/", "").
Proof. reflexivity. Qed.

Example clean_1 : filepath.Clean "a//b/./c/../d/" = "a/b/d".
Proof. reflexivity. Qed.

Example clean_2 : filepath.Clean "/../a/.." = "/".
Proof. reflexivity. Qed.

Example clean_3 : filepath.Clean "../../a/../../b" = "../../../b".
Proof. reflexivity. Qed.

Example rel_1 : filepath.Rel "/a" "/a/b/c" = Some "b/c".
Proof. reflexivity. Qed.

Example rel_2 : filepath.Rel "/a" "/b/c" = Some "../b/c".
Proof. reflexivity. Qed.

Example rel_3 : filepath.Rel "/a" "./b/c" = None.
Proof. reflexivity. Qed.

Example rel_4 : filepath.Rel "a/b/c" "a/c/d" = Some "../../c/d".
Proof. reflexivity. Qed.

Example rel_5 : filepath.Rel "." "a/b" = Some "a/b".
Proof. reflexivity. Qed.

Example rel_6 : filepath.Rel ".." "a" = None.
Proof. reflexivity. Qed.

Example clean_table :
  List.map filepath.Clean
    ["abc"; "abc/def"; "."; ".."; "../.."; "../../abc"; "/abc"; "/"; "";
     "abc/"; "./"; "../"; "/abc/"; "abc//def//ghi"; "//abc"; "//abc//";
     "abc/./def"; "/./abc/def"; "abc/."; "abc/def/ghi/../jkl";
     "abc/def/../ghi/../jkl"; "abc/def/.."; "abc/def/../.."; "/abc/def/../..";
     "abc/def/../../.."; "/abc/def/../../..";
     "abc/def/../../../ghi/jkl/../../../mno"; "/../abc"; "abc/./../def";
     "abc/../../././../def"]
  = ["abc"; "abc/def"; "."; ".."; "../.."; "../../abc"; "/abc"; "/"; ".";
     "abc"; "."; ".."; "/abc"; "abc/def/ghi"; "/abc"; "/abc";
     "abc/def"; "/abc/def"; "abc"; "abc/def/jkl";
     "abc/jkl"; "abc"; "."; "/";
     ".."; "/";
     "../../mno"; "/abc"; "def";
     "../../def"].
Proof. vm_compute. reflexivity. Qed.

Example rel_table :
  List.map (fun p => filepath.Rel (fst p) (snd p))
    [("a/b", "a/b"); ("a/b/.", "a/b"); ("./a/b", "a/b"); ("ab/cd", "ab/cde");
     ("ab/cd", "ab/c"); ("a/b", "a/b/c/d"); ("a/b", "a/b/../c");
     ("a/b/../c", "a/b"); ("a/b", "c/d"); ("a/b/c/d", "a/b");
     ("a/b/c/d/", "a/b/"); ("../../a/b", "../../a/b/c/d"); ("/a/b", "/a/b");
     ("/ab/cd", "/ab/cde"); ("/a/b/c", "/a/c/d"); ("/a/b/c/d", "/a/b");
     ("/../../a/b", "/../../a/b/c/d"); (".", ".."); ("..", ".");
     ("a", "/a"); ("/a", "a")]
  = [Some "."; Some "."; Some "."; Some "../cde";
     Some "../c"; Some "c/d"; Some "../c";
     Some "../b"; Some "../../c/d"; Some "../..";
     Some "../.."; Some "c/d"; Some ".";
     Some "../cde"; Some "../../c/d"; Some "../..";
     Some "c/d"; Some ".."; None;
     None; None].
Proof. vm_compute. reflexivity. Qed.

Example demo1 :
  option_map (fun r => entryNames (fst r))
    (writeFile stored.lib fsDemo (newZipWriter true 5) "a/b/c.txt" "a/b/c.txt")
  = Some [Some "a/b/"; Some "a/b/c.txt"].
Proof. vm_compute. reflexivity. Qed.

Local Open Scope nat_scope.
Local Open Scope list_scope.

(** ** Paths *)

Lemma Split_slash_end (s : string) :
  filepath.Split (s +:+ "/") = (s +:+ "/", "").
Proof.
  induction s as [|c s IH]; [reflexivity|].
  change (String c s +:+ "/") with (String c (s +:+ "/")).
  change (filepath.Split (String c (s +:+ "/")))
    with (let (dir, file) := filepath.Split (s +:+ "/") in
          match dir with
          | EmptyString =>
              if Ascii.eqb c "/" then (String c EmptyString, file)
              else (EmptyString, String c file)
          | _ => (String c dir, file)
          end).
  rewrite IH.
  destruct (s +:+ "/") eqn:E; [|reflexivity].
  destruct s; discriminate.
Qed.

Lemma substring_all_1 (c : ascii) : substring 0 1 (String c "") = String c "".
Proof. reflexivity. Qed.

Lemma HasSuffix_slash_inv (s : string) :
  strings.HasSuffix s "/" = true → ∃ s', s = s' +:+ "/".
Proof.
  unfold strings.HasSuffix. cbn [String.length].
  induction s as [|c s IH]; [discriminate|].
  intros H. apply andb_prop in H as [_ H].
  apply String.eqb_eq in H.
  cbn [String.length] in H.
  replace (S (String.length s) - 1)%nat with (String.length s) in H by lia.
  destruct s as [|c' s].
  - cbn in H. exists "". exact H.
  - cbn [String.length substring] in H.
    destruct IH as [s' Hs'].
    + apply andb_true_intro. split; [reflexivity|].
      apply String.eqb_eq. cbn [String.length].
      replace (S (String.length s) - 1)%nat with (String.length s) by lia.
      exact H.
    + exists (String c s'). rewrite Hs'. reflexivity.
Qed.

Lemma dirName_cases (dir : string) :
  dirName dir = "" ∨ ∃ s, dirName dir = s +:+ "/".
Proof.
  unfold dirName.
  destruct (String.eqb dir "") eqn:E.
  - apply String.eqb_eq in E. left. now subst.
  - destruct (strings.HasSuffix dir "/") eqn:H; cbn [negb andb].
    + right. now apply HasSuffix_slash_inv.
    + right. now exists dir.
Qed.

(** ** The directory recorder *)

Lemma writeDirectoryLoop_stop fuel z dir :
  dirWanted z dir = false →
  writeDirectoryLoop fuel z dir = Some z.
Proof.
  unfold dirWanted. intros H. destruct fuel; cbn [writeDirectoryLoop]; now rewrite H.
Qed.

Lemma writeDirectoryLoop_slash fuel z s :
  writeDirectoryLoop (S fuel) z (s +:+ "/")
  = Some (if dirWanted z (s +:+ "/") then addDir z (s +:+ "/") else z).
Proof.
  destruct (dirWanted z (s +:+ "/")) eqn:W.
  - cbn [writeDirectoryLoop]. unfold dirWanted in W. rewrite W.
    rewrite Split_slash_end. cbn [fst].
    apply writeDirectoryLoop_stop.
    unfold dirWanted, dirCreated, addDir, enqueue, markDir. cbn [createdDirs].
    rewrite lookup_insert_eq. cbn. now rewrite !andb_false_r.
  - now apply writeDirectoryLoop_stop.
Qed.

(** [writeDirectory] always returns, and its loop body runs at most once:
    after the first turn [filepath.Split] gives back the same name, which
    is by then recorded in [createdDirs]. *)
Lemma writeDirectory_spec z dir :
  writeDirectory z dir
  = Some (if dirWanted z (dirName dir) then addDir z (dirName dir) else z).
Proof.
  unfold writeDirectory. fold (dirName dir).
  destruct (dirName_cases dir) as [E|[s E]]; rewrite E.
  - reflexivity.
  - apply writeDirectoryLoop_slash.
Qed.

Lemma writeDirectory_at_most_one z dir :
  ∃ z', writeDirectory z dir = Some z'
        ∧ (writeOps z' = writeOps z
           ∨ writeOps z' = writeOps z ++ [Ready (dirEntry z (dirName dir))]).
Proof.
  rewrite writeDirectory_spec. eexists. split; [reflexivity|].
  destruct (dirWanted z (dirName dir)); [right|left]; reflexivity.
Qed.

Lemma parentDirs_spec z rel :
  ∃ z1, parentDirs z rel = Some z1
        ∧ time z1 = time z ∧ compLevel z1 = compLevel z
        ∧ directories z1 = directories z ∧ errors z1 = errors z
        ∧ crashed z1 = crashed z
        ∧ (writeOps z1 = writeOps z
           ∨ directories z = true
             ∧ writeOps z1
               = writeOps z
                 ++ [Ready (dirEntry z (dirName (fst (filepath.Split rel))))]).
Proof.
  unfold parentDirs. destruct (directories z) eqn:D.
  - rewrite writeDirectory_spec. eexists. split; [reflexivity|].
    destruct (dirWanted z _).
    + repeat split; try assumption. right. split; reflexivity.
    + repeat split; try assumption. now left.
  - exists z. repeat split; try assumption. now left.
Qed.

Lemma parentDirs_disabled z rel :
  directories z = false → parentDirs z rel = Some z.
Proof. unfold parentDirs. now intros ->. Qed.

(** ** Small files, symbolic links *)

Lemma compressBlock_ok flate z r dict last :
  levelOk flate (compLevel z) = true →
  rd_fault r = None →
  compressBlock flate z r dict last
  = inl (deflate flate (compLevel z)
           (if (0 <? length dict)%nat then Some dict else None)
           (rd_data r) (if last then EndClose else EndFlush)).
Proof.
  intros L F. unfold compressBlock, Copy. now rewrite L, F.
Qed.

(** The small-file task on a file that reads without fault. *)
Lemma compressWholeFile_ok flate z rel r :
  noFaults r →
  levelOk flate (compLevel z) = true →
  let compressed := deflate flate (compLevel z) None (content r) EndClose in
  compressWholeFile flate z rel r
  = Done {| fh := {| zip.Name := rel;
                     zip.Method :=
                       if (Z.of_nat (length compressed) <? fileSize r)%Z
                       then zip.Deflate else zip.Store;
                     zip.CRC32 := crc32.Sum32 (content r);
                     zip.UncompressedSize64 := fileSize r;
                     zip.Mode := 0;
                     zip.ModTime := time z |};
            futureReaders :=
              Some [Some (if (Z.of_nat (length compressed) <? fileSize r)%Z
                          then compressed else content r)] |}.
Proof.
  intros F L compressed. unfold compressWholeFile, Copy, ReadAll, wholeReader.
  cbn [rd_fault rd_data rd_op]. rewrite !F.
  rewrite compressBlock_ok by (try assumption; reflexivity).
  cbn [length Nat.ltb Nat.leb rd_data]. fold compressed. fold (fileSize r).
  now destruct (Z.of_nat (length compressed) <? fileSize r)%Z.
Qed.

Lemma writeFile_small flate fs z rel file r :
  fs file = Some (Regular r) →
  openFails r = false →
  (fileSize r < minParallelFileSize)%Z →
  ∃ z1, parentDirs z rel = Some z1
        ∧ time z1 = time z ∧ compLevel z1 = compLevel z
        ∧ writeFile flate fs z rel file
          = Some (postErrors
                    (enqueue z1 (Pending (delivered (compressWholeFile flate z1 rel r))))
                    (posted (compressWholeFile flate z1 rel r))
                    (crashes (compressWholeFile flate z1 rel r)),
                  None).
Proof.
  intros Hfs Ho Hs. unfold writeFile. rewrite Hfs.
  destruct (parentDirs_spec z rel) as (z1 & -> & Ht & Hl & _).
  exists z1. repeat split; try assumption.
  rewrite Ho.
  destruct (fileSize r >=? minParallelFileSize)%Z eqn:E; [lia|reflexivity].
Qed.

(** C4: a regular file below [minParallelFileSize] that reads without
    fault is compressed whole; when the compressed size is greater than or
    equal to the size of the file, the entry is sent with method Store and
    the raw bytes of the file as its one payload, otherwise with method
    Deflate and the compressed bytes. *)
Theorem small_file_store_fallback flate fs z rel file r :
  fs file = Some (Regular r) →
  openFails r = false →
  noFaults r →
  levelOk flate (compLevel z) = true →
  (fileSize r < minParallelFileSize)%Z →
  let compressed := deflate flate (compLevel z) None (content r) EndClose in
  ∃ z1 ze,
    parentDirs z rel = Some z1
    ∧ writeFile flate fs z rel file
      = Some (postErrors (enqueue z1 (Pending (Some ze))) [] false, None)
    ∧ zip.Name (fh ze) = rel
    ∧ zip.UncompressedSize64 (fh ze) = fileSize r
    ∧ zip.CRC32 (fh ze) = crc32.Sum32 (content r)
    ∧ (length (content r) ≤ length compressed →
       zip.Method (fh ze) = zip.Store
       ∧ futureReaders ze = Some [Some (content r)])
    ∧ (length compressed < length (content r) →
       zip.Method (fh ze) = zip.Deflate
       ∧ futureReaders ze = Some [Some compressed]).
Proof.
  intros Hfs Ho F L Hs compressed.
  destruct (writeFile_small flate fs z rel file r Hfs Ho Hs)
    as (z1 & Hp & Ht & Hl & Hw).
  rewrite compressWholeFile_ok in Hw by (try assumption; now rewrite Hl).
  rewrite Hl in Hw. fold compressed in Hw. cbn [delivered posted crashes] in Hw.
  eexists z1, _. split; [exact Hp|]. split; [exact Hw|].
  cbn [fh futureReaders zip.Name zip.Method zip.UncompressedSize64 zip.CRC32].
  repeat split; try reflexivity.
  - destruct (Z.of_nat (length compressed) <? fileSize r)%Z eqn:E;
      [unfold fileSize in E; lia | reflexivity].
  - destruct (Z.of_nat (length compressed) <? fileSize r)%Z eqn:E;
      [unfold fileSize in E; lia | reflexivity].
  - destruct (Z.of_nat (length compressed) <? fileSize r)%Z eqn:E;
      [reflexivity | unfold fileSize in E; lia].
  - destruct (Z.of_nat (length compressed) <? fileSize r)%Z eqn:E;
      [reflexivity | unfold fileSize in E; lia].
Qed.

Lemma small_file_store_fallback_witness :
  ∃ z1 ze,
    parentDirs (newZipWriter true 5) "a/b/c.txt" = Some z1
    ∧ writeFile stored.lib fsDemo (newZipWriter true 5) "a/b/c.txt" "a/b/c.txt"
      = Some (postErrors (enqueue z1 (Pending (Some ze))) [] false, None)
    ∧ zip.Name (fh ze) = "a/b/c.txt"
    ∧ zip.UncompressedSize64 (fh ze) = fileSize helloFile
    ∧ zip.CRC32 (fh ze) = crc32.Sum32 (content helloFile)
    ∧ (length (content helloFile) ≤ length (deflate stored.lib 5 None (content helloFile) EndClose) →
       zip.Method (fh ze) = zip.Store
       ∧ futureReaders ze = Some [Some (content helloFile)])
    ∧ (length (deflate stored.lib 5 None (content helloFile) EndClose) < length (content helloFile) →
       zip.Method (fh ze) = zip.Deflate
       ∧ futureReaders ze = Some [Some (deflate stored.lib 5 None (content helloFile) EndClose)]).
Proof.
  apply (small_file_store_fallback stored.lib fsDemo (newZipWriter true 5)
           "a/b/c.txt" "a/b/c.txt" helloFile).
  - reflexivity.
  - reflexivity.
  - intros op. reflexivity.
  - reflexivity.
  - vm_compute. reflexivity.
Defined.

(** C1 (counter-example): the empty file [e.txt] is submitted with method
    Store, not Deflate. *)
Lemma empty_file_method_example :
  option_map (fun r => entryMethods (fst r))
    (writeFile stored.lib fsDemo (newZipWriter false 5) "e.txt" "e.txt")
  = Some [Some zip.Store].
Proof. vm_compute. reflexivity. Qed.

(** C1 (amended): a zero-length regular file that reads without fault is
    submitted with method Store and one empty payload, whatever the
    compressor produces: a compressed size is never below zero, so the
    store fallback always applies. *)
Theorem empty_file_is_stored flate fs z rel file r :
  fs file = Some (Regular r) →
  openFails r = false →
  noFaults r →
  levelOk flate (compLevel z) = true →
  content r = [] →
  ∃ z1,
    parentDirs z rel = Some z1
    ∧ writeFile flate fs z rel file
      = Some (postErrors
                (enqueue z1
                   (Pending
                      (Some {| fh := {| zip.Name := rel;
                                        zip.Method := zip.Store;
                                        zip.CRC32 := 0;
                                        zip.UncompressedSize64 := 0;
                                        zip.Mode := 0;
                                        zip.ModTime := time z |};
                               futureReaders := Some [Some []] |})))
                [] false,
              None).
Proof.
  intros Hfs Ho F L E.
  assert (Hs : (fileSize r < minParallelFileSize)%Z)
    by (unfold fileSize; rewrite E; reflexivity).
  destruct (writeFile_small flate fs z rel file r Hfs Ho Hs)
    as (z1 & Hp & Ht & Hl & Hw).
  exists z1. split; [exact Hp|]. rewrite Hw.
  rewrite compressWholeFile_ok by (try assumption; now rewrite Hl).
  unfold fileSize. rewrite E, Ht. cbn [length].
  replace (Z.of_nat (length (deflate flate (compLevel z1) None [] EndClose))
           <? Z.of_nat 0)%Z
    with false by (symmetry; apply Z.ltb_ge; lia).
  reflexivity.
Qed.

Lemma empty_file_is_stored_witness :
  ∃ z1,
    parentDirs (newZipWriter false 5) "e.txt" = Some z1
    ∧ writeFile stored.lib fsDemo (newZipWriter false 5) "e.txt" "e.txt"
      = Some (postErrors
                (enqueue z1
                   (Pending
                      (Some {| fh := {| zip.Name := "e.txt";
                                        zip.Method := zip.Store;
                                        zip.CRC32 := 0;
                                        zip.UncompressedSize64 := 0;
                                        zip.Mode := 0;
                                        zip.ModTime := time (newZipWriter false 5) |};
                               futureReaders := Some [Some []] |})))
                [] false,
              None).
Proof.
  apply (empty_file_is_stored stored.lib fsDemo (newZipWriter false 5)
           "e.txt" "e.txt" emptyFile).
  - reflexivity.
  - reflexivity.
  - intros op. reflexivity.
  - reflexivity.
  - reflexivity.
Defined.

(** C2 (counter-example): the entry submitted for the link
    [link -> target/path] carries a CRC-32 field of zero, which is not the
    CRC-32 of the target. *)
Lemma symlink_crc_example :
  option_map
    (fun r => List.map (fun p => option_map (fun ze => zip.CRC32 (fh ze))
                                   (promised p))
                (writeOps (fst r)))
    (writeFile stored.lib fsDemo (newZipWriter false 5) "link" "link")
  = Some [Some 0%Z]
  ∧ crc32.Sum32 (bytes_of_string "target/path") = 1067351409%Z.
Proof. split; vm_compute; reflexivity. Qed.

(** C2 (amended): for a symbolic link whose target reads as [dest], the
    planner submits, after the directory entry of its parent if one is due,
    exactly one entry for the link; the entry is complete when submitted,
    its mode has the symlink bit, its method is Store, its one payload is
    the target string, and the planner leaves its CRC-32 field at zero: the
    writer opens the plain sink of [CreateHeader] for it, not the sink for
    compressed data that takes the CRC-32 from the header. *)
Theorem symlink_entry flate fs z rel file dest :
  fs file = Some (Symlink (Some dest)) →
  ∃ z1 ze,
    parentDirs z rel = Some z1
    ∧ writeFile flate fs z rel file = Some (enqueue z1 (Ready ze), None)
    ∧ (writeOps z1 = writeOps z
       ∨ ∃ d, writeOps z1 = writeOps z ++ [Ready (dirEntry z d)])
    ∧ zip.Name (fh ze) = rel
    ∧ isSymlinkMode (zip.Mode (fh ze)) = true
    ∧ zip.Method (fh ze) = zip.Store
    ∧ futureReaders ze = Some [Some (bytes_of_string dest)]
    ∧ zip.CRC32 (fh ze) = 0%Z
    ∧ openSink ze = (PlainSink, zip.CreateHeader (fh ze)).
Proof.
  intros Hfs. unfold writeFile, writeSymlink, Readlink. rewrite Hfs.
  destruct (parentDirs_spec z rel) as (z1 & -> & Ht & _ & _ & _ & _ & Hq).
  exists z1, (symlinkEntry z1 rel dest). split; [reflexivity|].
  split; [reflexivity|]. split.
  - destruct Hq as [Hq|[_ Hq]]; [now left | right; eexists; exact Hq].
  - repeat split; reflexivity.
Qed.

Lemma symlink_entry_witness :
  ∃ z1 ze,
    parentDirs (newZipWriter false 5) "link" = Some z1
    ∧ writeFile stored.lib fsDemo (newZipWriter false 5) "link" "link"
      = Some (enqueue z1 (Ready ze), None)
    ∧ (writeOps z1 = writeOps (newZipWriter false 5)
       ∨ ∃ d, writeOps z1
              = writeOps (newZipWriter false 5)
                ++ [Ready (dirEntry (newZipWriter false 5) d)])
    ∧ zip.Name (fh ze) = "link"
    ∧ isSymlinkMode (zip.Mode (fh ze)) = true
    ∧ zip.Method (fh ze) = zip.Store
    ∧ futureReaders ze = Some [Some (bytes_of_string "target/path")]
    ∧ zip.CRC32 (fh ze) = 0%Z
    ∧ openSink ze = (PlainSink, zip.CreateHeader (fh ze)).
Proof.
  apply (symlink_entry stored.lib fsDemo (newZipWriter false 5)
           "link" "link" "target/path").
  reflexivity.
Defined.

(** The entries of directories never carry the symlink bit. *)
Lemma dirEntry_not_symlink z d :
  isSymlinkMode (zip.Mode (fh (dirEntry z d))) = false.
Proof. reflexivity. Qed.

(** ** Directory entries on a nested path *)

(** A name already recorded is not submitted again. *)
Lemma writeDirectory_no_repeat z dir :
  dirCreated z (dirName dir) = true → writeDirectory z dir = Some z.
Proof.
  intros H. rewrite writeDirectory_spec. unfold dirWanted. rewrite H.
  now rewrite andb_false_r.
Qed.

(** Without [-d], [writeFile] submits no directory entry: what it adds is
    the promise of a file or the entry of a link. *)
Lemma writeFile_no_directories flate fs z rel file z' e :
  directories z = false →
  writeFile flate fs z rel file = Some (z', e) →
  writeOps z' = writeOps z
  ∨ (∃ o, writeOps z' = writeOps z ++ [Pending o])
  ∨ (∃ dest, writeOps z' = writeOps z ++ [Ready (symlinkEntry z rel dest)]).
Proof.
  intros D. unfold writeFile, writeSymlink. rewrite (parentDirs_disabled z rel D), D.
  destruct (fs file) as [[| dest | r |]|].
  - intros [= <- <-]. now left.
  - destruct (Readlink fs file) as [d|]; intros [= <- <-].
    + right. right. now exists d.
    + now left.
  - destruct (openFails r).
    + intros [= <- <-]. right. left. eexists. reflexivity.
    + destruct (fileSize r >=? minParallelFileSize)%Z.
      * destruct (blockTasks r); [|discriminate].
        intros [= <- <-]. right. left. eexists. reflexivity.
      * intros [= <- <-]. right. left. eexists. reflexivity.
  - intros [= <- <-]. now left.
  - intros [= <- <-]. now left.
Qed.

(** C8 (the code on the nested path of the claim): with [-d], a build of
    the one file [a/b/c.txt] submits the directory entry [a/b/] and the
    file, and no entry for the ancestor [a/]. *)
Theorem nested_file_ancestor_missing :
  option_map
    (fun res => match res with
                | Archive log => Some (archiveNames log)
                | _ => None
                end)
    (write stored.lib fsDemo (newZipWriter true 5) [fileArgHere "a/b/c.txt"] "")
  = Some (Some ["a/b/"; "a/b/c.txt"]).
Proof. vm_compute. reflexivity. Qed.

(** C10 (the code on the path of the claim): asked for [a/b/] with nothing
    recorded yet, [writeDirectory] submits the entry [a/b/] alone; the
    entry of the parent [a/] does not follow it. *)
Theorem writeDirectory_submits_child_only :
  option_map entryNames (writeDirectory (newZipWriter true 5) "a/b/")
  = Some [Some "a/b/"].
Proof. vm_compute. reflexivity. Qed.

(** ** Names relative to the root *)

Lemma SplitSlash_noSlash (s : string) :
  Forall (fun e => noSlash e = true) (strings.SplitSlash s).
Proof.
  induction s as [|c s IH]; cbn [strings.SplitSlash].
  - repeat constructor.
  - destruct (Ascii.eqb c "/") eqn:E.
    + constructor; [reflexivity | exact IH].
    + destruct (strings.SplitSlash s) as [|e es].
      * repeat constructor. cbn. now rewrite E.
      * inversion IH; subst. constructor; [|assumption].
        cbn. now rewrite E.
Qed.

Lemma SplitSlash_single (e : string) :
  noSlash e = true → strings.SplitSlash e = [e].
Proof.
  induction e as [|c e IH]; [reflexivity|].
  cbn [noSlash strings.SplitSlash]. intros H.
  apply andb_prop in H as [Hc He]. apply negb_true_iff in Hc.
  now rewrite Hc, (IH He).
Qed.

Lemma SplitSlash_app (e rest : string) :
  noSlash e = true →
  strings.SplitSlash (e +:+ String "/" rest) = e :: strings.SplitSlash rest.
Proof.
  induction e as [|c e IH]; [reflexivity|].
  cbn [noSlash]. intros H.
  apply andb_prop in H as [Hc He]. apply negb_true_iff in Hc.
  change (String c e +:+ String "/" rest) with (String c (e +:+ String "/" rest)).
  cbn [strings.SplitSlash]. now rewrite Hc, (IH He).
Qed.


Lemma SplitSlash_JoinSlash (x : string) (l : list string) :
  Forall okElem (x :: l) →
  strings.SplitSlash (strings.JoinSlash (x :: l)) = x :: l.
Proof.
  revert x. induction l as [|y l IH]; intros x H.
  - inversion H as [|? ? [_ Hx] _]; subst. now apply SplitSlash_single.
  - inversion H as [|? ? [_ Hx] Hl]; subst.
    change (strings.JoinSlash (x :: y :: l))
      with (x +:+ String "/" (strings.JoinSlash (y :: l))).
    rewrite SplitSlash_app by assumption. now rewrite IH.
Qed.

Lemma filter_okElem (l : list string) :
  Forall okElem l →
  List.filter (fun e => negb (String.eqb e "")) l = l.
Proof.
  induction 1 as [|e l [He _] _ IH]; [reflexivity|].
  cbn [List.filter]. apply String.eqb_neq in He. rewrite He. cbn [negb].
  now rewrite IH.
Qed.

Lemma elems_JoinSlash (l : list string) :
  Forall okElem l → filepath.elems (strings.JoinSlash l) = l.
Proof.
  intros H. unfold filepath.elems. destruct l as [|x l]; [reflexivity|].
  rewrite SplitSlash_JoinSlash by assumption. now apply filter_okElem.
Qed.

Lemma elems_rooted_JoinSlash (l : list string) :
  Forall okElem l → filepath.elems (String "/" (strings.JoinSlash l)) = l.
Proof.
  intros H. unfold filepath.elems. cbn [strings.SplitSlash].
  change (Ascii.eqb "/" "/") with true. cbn [List.filter String.eqb negb].
  now apply elems_JoinSlash.
Qed.

Lemma realName_okElem (e : string) : realName e → okElem e.
Proof. intros (H1 & _ & _ & H2). now split. Qed.


Lemma clean_elem_ok (isRooted : bool) (st : list string) (e : string) :
  noSlash e = true → stackOk st → stackOk (filepath.clean_elem isRooted st e).
Proof.
  intros Hns (rs & k & -> & Hrs). unfold filepath.clean_elem.
  destruct (String.eqb e "") eqn:E1; [now exists rs, k|].
  destruct (String.eqb e ".") eqn:E2; [now exists rs, k|].
  destruct (String.eqb e "..") eqn:E3.
  - destruct rs as [|r rs].
    + cbn [app]. destruct k as [|k]; cbn [repeat].
      * destruct isRooted; cbn [negb].
        -- now exists [], 0.
        -- now exists [], 1.
      * cbn [String.eqb Ascii.eqb Bool.eqb negb].
        destruct isRooted; cbn [negb].
        -- now exists [], (S k).
        -- now exists [], (S (S k)).
    + cbn [app]. inversion Hrs as [|? ? (_ & _ & Hr & _) Hrs']; subst.
      apply String.eqb_neq in Hr. rewrite Hr. cbn [negb].
      now exists rs, k.
  - exists (e :: rs), k. split; [reflexivity|].
    constructor; [|assumption].
    apply String.eqb_neq in E1, E2, E3. now repeat split.
Qed.

Lemma fold_clean_ok (isRooted : bool) (es st : list string) :
  Forall (fun e => noSlash e = true) es → stackOk st →
  stackOk (fold_left (filepath.clean_elem isRooted) es st).
Proof.
  intros H. revert st. induction H as [|e es He _ IH]; intros st Hst.
  - exact Hst.
  - cbn [fold_left]. apply IH. now apply clean_elem_ok.
Qed.

Lemma repeat_snoc {A} (x : A) (k : nat) : repeat x k ++ [x] = x :: repeat x k.
Proof. induction k as [|k IH]; [reflexivity|]. cbn. now rewrite IH. Qed.

Lemma rev_repeat {A} (x : A) (k : nat) : rev (repeat x k) = repeat x k.
Proof.
  induction k as [|k IH]; [reflexivity|].
  cbn [repeat rev]. rewrite IH. apply repeat_snoc.
Qed.

Lemma relShape_ups (k : nat) (l : list string) :
  relShape l → relShape (repeat ".." k ++ l).
Proof. intros H. induction k; [exact H|]. cbn. now constructor. Qed.

Lemma okElem_ups (k : nat) (l : list string) :
  Forall okElem l → Forall okElem (repeat ".." k ++ l).
Proof.
  intros H. induction k; [exact H|]. cbn. constructor; [|assumption].
  split; [discriminate | reflexivity].
Qed.

Lemma clean_elems_shape (path : string) :
  relShape (filepath.clean_elems path)
  ∧ Forall okElem (filepath.clean_elems path).
Proof.
  unfold filepath.clean_elems.
  destruct (fold_clean_ok (filepath.rooted path) (strings.SplitSlash path) [])
    as (rs & k & -> & Hrs).
  - apply SplitSlash_noSlash.
  - now exists [], 0.
  - rewrite rev_app_distr, rev_repeat.
    assert (Hr : Forall realName (rev rs)) by now apply Forall_rev.
    split.
    + apply relShape_ups. now constructor.
    + apply okElem_ups. eapply Forall_impl; [exact Hr|].
      apply realName_okElem.
Qed.

(** The elements of a cleaned path. *)
Lemma elems_Clean_shape (path : string) :
  relShape (filepath.elems (filepath.Clean path)).
Proof.
  unfold filepath.Clean.
  destruct (String.eqb path ""); [apply shape_dot|].
  destruct (clean_elems_shape path) as [Hs Ho].
  destruct (filepath.rooted path).
  - now rewrite elems_rooted_JoinSlash.
  - destruct (filepath.clean_elems path) as [|x l] eqn:E; [apply shape_dot|].
    now rewrite elems_JoinSlash.
Qed.

Lemma relShape_tail (x : string) (l : list string) :
  relShape (x :: l) → relShape l.
Proof.
  inversion 1 as [rs Hrs | | l' Hl]; subst.
  - constructor. now inversion Hrs.
  - constructor. constructor.
  - assumption.
Qed.

Lemma strip_common_shape (b t : list string) :
  relShape t → relShape (snd (filepath.strip_common b t)).
Proof.
  revert t. induction b as [|x b IH]; intros t Ht.
  - destruct t; exact Ht.
  - destruct t as [|y t]; [exact Ht|].
    cbn [filepath.strip_common]. destruct (String.eqb x y).
    + apply IH. now apply relShape_tail in Ht.
    + exact Ht.
Qed.

Lemma updirs_shape (b t : list string) :
  relShape t → relShape (filepath.updirs b ++ t).
Proof.
  intros H. induction b as [|x b IH]; [exact H|]. cbn. now constructor.
Qed.

(** Every name that [filepath.Rel] returns is the slash-join of elements
    of the shape [relShape]. *)
Lemma Rel_shape (basepath targpath rel : string) :
  filepath.Rel basepath targpath = Some rel →
  ∃ l, rel = strings.JoinSlash l ∧ relShape l.
Proof.
  unfold filepath.Rel.
  destruct (String.eqb (filepath.Clean targpath) (filepath.Clean basepath)).
  { intros [= <-]. exists ["."]. split; [reflexivity | apply shape_dot]. }
  set (base := if String.eqb (filepath.Clean basepath) "." then ""
               else filepath.Clean basepath).
  destruct (negb (Bool.eqb (filepath.rooted base)
                    (filepath.rooted (filepath.Clean targpath))));
    [discriminate|].
  pose proof (strip_common_shape (filepath.elems base)
                (filepath.elems (filepath.Clean targpath))
                (elems_Clean_shape targpath)) as Ht.
  destruct (filepath.strip_common (filepath.elems base)
              (filepath.elems (filepath.Clean targpath))) as [b t].
  cbn [snd] in Ht.
  destruct b as [|b0 b].
  - intros [= <-]. now exists t.
  - destruct t as [|t0 t].
    + intros [= <-]. exists (filepath.updirs (b0 :: b) ++ []). split.
      * now rewrite app_nil_r.
      * apply updirs_shape. constructor. constructor.
    + destruct (String.eqb b0 ".."); [discriminate|].
      intros [= <-]. exists (filepath.updirs (b0 :: b) ++ t0 :: t).
      split; [reflexivity|]. now apply updirs_shape.
Qed.

Lemma crcFile_name r ze ze' :
  delivered (crcFile r ze) = Some ze' → zip.Name (fh ze') = zip.Name (fh ze).
Proof.
  unfold crcFile. destruct (Copy _); [|discriminate].
  now intros [= <-].
Qed.

Lemma compressWholeFile_name flate z rel r ze :
  delivered (compressWholeFile flate z rel r) = Some ze →
  zip.Name (fh ze) = rel.
Proof.
  unfold compressWholeFile.
  destruct (Copy _); [|discriminate].
  destruct (fault r OpSeekCompress); [discriminate|].
  destruct (compressBlock _ _ _ _ _); [|discriminate].
  destruct (_ <? _)%Z; [now intros [= <-]|].
  destruct (fault r OpSeekRaw); [discriminate|].
  destruct (ReadAll _) as [buf [e|]]; [discriminate|].
  now intros [= <-].
Qed.

(** What [writeFile] appends to [writeOps], and under which names. *)
Lemma writeFile_entry_names flate fs z rel file z' e :
  writeFile flate fs z rel file = Some (z', e) →
  ∃ added,
    writeOps z' = writeOps z ++ added
    ∧ Forall (fun p => ∀ ze, promised p = Some ze →
                             nameFor rel (zip.Name (fh ze))) added.
Proof.
  unfold writeFile, writeSymlink.
  destruct (parentDirs_spec z rel) as (z1 & Hp & _ & _ & _ & _ & _ & Hq).
  assert (Hdirs : ∃ dirs, writeOps z1 = writeOps z ++ dirs
            ∧ Forall (fun p => ∀ ze, promised p = Some ze →
                                     nameFor rel (zip.Name (fh ze))) dirs).
  { destruct Hq as [Hq|[_ Hq]].
    - exists []. rewrite app_nil_r. split; [assumption | constructor].
    - eexists. split; [exact Hq|]. constructor; [|constructor].
      intros ze [= <-]. right. right. reflexivity. }
  destruct Hdirs as (dirs & Hd & Hf).
  assert (Hone : ∀ p,
            (∀ ze, promised p = Some ze → nameFor rel (zip.Name (fh ze))) →
            ∃ added, writeOps z1 ++ [p] = writeOps z ++ added
              ∧ Forall (fun p => ∀ ze, promised p = Some ze →
                                       nameFor rel (zip.Name (fh ze))) added).
  { intros p Hpn. exists (dirs ++ [p]). rewrite Hd, <- app_assoc.
    split; [reflexivity|]. apply Forall_app. split; [assumption|].
    constructor; [assumption | constructor]. }
  assert (Hnone : ∃ added, writeOps z = writeOps z ++ added
              ∧ Forall (fun p => ∀ ze, promised p = Some ze →
                                       nameFor rel (zip.Name (fh ze))) added).
  { exists []. rewrite app_nil_r. split; [reflexivity | constructor]. }
  destruct (fs file) as [[| dest | r |]|].
  - destruct (directories z).
    + rewrite writeDirectory_spec. intros [= <- <-].
      destruct (dirWanted z (dirName rel)); [|exact Hnone].
      eexists. split; [reflexivity|]. constructor; [|constructor].
      intros ze [= <-]. right. left. reflexivity.
    + intros [= <- <-]. exact Hnone.
  - rewrite Hp. destruct (Readlink fs file) as [d|]; intros [= <- <-].
    + apply Hone. intros ze [= <-]. left. reflexivity.
    + exists dirs. now split.
  - rewrite Hp. destruct (openFails r).
    + intros [= <- <-]. apply Hone. discriminate.
    + destruct (fileSize r >=? minParallelFileSize)%Z.
      * destruct (blockTasks r); [|discriminate].
        intros [= <- <-]. apply Hone. cbn [promised]. intros ze Hze.
        apply crcFile_name in Hze. left. exact Hze.
      * intros [= <- <-]. apply Hone. cbn [promised]. intros ze Hze.
        apply compressWholeFile_name in Hze. left. exact Hze.
  - intros [= <- <-]. exact Hnone.
  - intros [= <- <-]. exact Hnone.
Qed.

(** C9 (counter-example): with root [a] and file [b/c.txt], the entry is
    named [../b/c.txt], which has a [..] element. *)
Lemma outside_root_name_example :
  option_map (fun r => entryNames (fst r))
    (writeRelFile stored.lib fsDemo (newZipWriter false 5) "a" "b/c.txt")
  = Some [Some "../b/c.txt"]
  ∧ noDotElems "../b/c.txt" = false.
Proof. split; vm_compute; reflexivity. Qed.


(** ** The blocks of a large file *)

Lemma int64_id (x : Z) : (- 2 ^ 63 ≤ x < 2 ^ 63)%Z → int64 x = x.
Proof.
  intros H. unfold int64.
  rewrite Z.mod_small by lia. lia.
Qed.

Lemma parallelBlockSize_val : parallelBlockSize = 1048576%Z.
Proof. reflexivity. Qed.

Lemma windowSize_val : windowSize = 32768%Z.
Proof. reflexivity. Qed.

Lemma minParallelFileSize_val : minParallelFileSize = 6291456%Z.
Proof. reflexivity. Qed.

Lemma blockLoop_done fuel r size start :
  (size ≤ start)%Z → blockLoop fuel r size start = Some [].
Proof.
  intros H. destruct fuel; cbn [blockLoop];
    (destruct (start <? size)%Z eqn:E; [lia | reflexivity]).
Qed.

(** With [n] blocks left and fuel for them, the loop returns their tasks. *)
Lemma blockLoop_blocksFrom r n :
  ∀ fuel start,
    (0 ≤ start)%Z → (fileSize r < 2 ^ 62)%Z → n ≤ fuel →
    (fileSize r ≤ start + Z.of_nat n * parallelBlockSize)%Z →
    (n = 0 ∨ (start + (Z.of_nat n - 1) * parallelBlockSize < fileSize r)%Z) →
    blockLoop fuel r (fileSize r) start = Some (blocksFrom r n start).
Proof.
  induction n as [|n IH]; intros fuel start H0 Hmax Hf Hhi Hlo.
  - apply blockLoop_done. lia.
  - destruct fuel as [|fuel]; [lia|].
    assert (Hs : (start < fileSize r)%Z)
      by (rewrite parallelBlockSize_val in *; lia).
    assert (Hi : int64 (start + parallelBlockSize) = (start + parallelBlockSize)%Z)
      by (apply int64_id; rewrite parallelBlockSize_val in *; lia).
    cbn [blockLoop blocksFrom]. rewrite Hi.
    destruct (start <? fileSize r)%Z eqn:E; [|lia].
    rewrite (IH fuel (start + parallelBlockSize)%Z);
      [reflexivity | rewrite ?parallelBlockSize_val in *; lia ..].
Qed.

Lemma blockCount_bounds r :
  (0 < fileSize r)%Z →
  (fileSize r ≤ Z.of_nat (blockCount r) * parallelBlockSize)%Z
  ∧ ((Z.of_nat (blockCount r) - 1) * parallelBlockSize < fileSize r)%Z
  ∧ 0 < blockCount r
  ∧ blockCount r ≤ Z.to_nat (Z.quot (fileSize r) parallelBlockSize + 1).
Proof.
  intros H. unfold blockCount. rewrite parallelBlockSize_val.
  rewrite Z.quot_div_nonneg by lia.
  pose proof (Z.div_mod (fileSize r + 1048576 - 1) 1048576 ltac:(lia)).
  pose proof (Z.mod_pos_bound (fileSize r + 1048576 - 1) 1048576 ltac:(lia)).
  pose proof (Z.div_mod (fileSize r) 1048576 ltac:(lia)).
  pose proof (Z.mod_pos_bound (fileSize r) 1048576 ltac:(lia)).
  assert (0 ≤ (fileSize r + 1048576 - 1) / 1048576)%Z
    by (apply Z.div_pos; lia).
  rewrite Z2Nat.id by lia.
  repeat split; try lia.
Qed.

(** The block loop of [writeFile] ends within the capacity of the channel
    and yields one task for each block of the file. *)
Lemma blockTasks_spec r :
  (0 < fileSize r < 2 ^ 62)%Z →
  blockTasks r = Some (blocksFrom r (blockCount r) 0).
Proof.
  intros [H0 H1]. destruct (blockCount_bounds r H0) as (Ha & Hb & Hc & Hd).
  unfold blockTasks. apply blockLoop_blocksFrom; try lia.
Qed.

Lemma blocksFrom_lookup r n :
  ∀ start k t,
    blocksFrom r n start !! k = Some t →
    k < n ∧ t = blockAt r (start + Z.of_nat k * parallelBlockSize).
Proof.
  induction n as [|n IH]; intros start k t; [discriminate|].
  destruct k as [|k]; cbn [blocksFrom lookup list_lookup].
  - intros [= <-]. split; [lia|]. f_equal. lia.
  - intros H. apply IH in H as [Hk ->]. split; [lia|]. f_equal. lia.
Qed.

Lemma blocksFrom_snoc r n :
  ∀ start,
    blocksFrom r (S n) start
    = blocksFrom r n start
      ++ [blockAt r (start + Z.of_nat n * parallelBlockSize)].
Proof.
  induction n as [|n IH]; intros start.
  - cbn [blocksFrom app].
    replace (start + Z.of_nat 0 * parallelBlockSize)%Z with start by lia.
    reflexivity.
  - change (blocksFrom r (S (S n)) start)
      with (blockAt r start :: blocksFrom r (S n) (start + parallelBlockSize)).
    rewrite IH. cbn [blocksFrom app].
    replace (start + parallelBlockSize + Z.of_nat n * parallelBlockSize)%Z
      with (start + Z.of_nat (S n) * parallelBlockSize)%Z by lia.
    reflexivity.
Qed.

Lemma blockAt_dict r start :
  noFaults r →
  (windowSize ≤ start ≤ fileSize r)%Z →
  bt_dict (blockAt r start)
  = lastBytes (Z.to_nat windowSize) (firstn (Z.to_nat start) (content r))
  ∧ length (bt_dict (blockAt r start)) = Z.to_nat windowSize.
Proof.
  intros F [Hw Hs]. unfold blockAt. cbn [bt_dict].
  destruct (start >=? windowSize)%Z eqn:E; [|lia].
  unfold ReadAll, NewSectionReader. cbn [rd_fault rd_data]. rewrite F. cbn [fst].
  unfold lastBytes, fileSize in *.
  pose proof windowSize_val as Hv.
  set (w := Z.to_nat windowSize) in *.
  set (a := Z.to_nat (start - windowSize)).
  assert (Ha : Z.to_nat start = a + w) by lia.
  rewrite Ha. split.
  - rewrite length_firstn.
    replace (Nat.min (a + w) (length (content r)) - w) with a by lia.
    apply firstn_skipn_comm.
  - rewrite length_firstn, length_skipn. lia.
Qed.

Lemma blockAt_first_dict r : bt_dict (blockAt r 0) = [].
Proof. reflexivity. Qed.

Lemma runBlock_blockAt flate z r start :
  noFaults r →
  levelOk flate (compLevel z) = true →
  runBlock flate z (blockAt r start)
  = Done (deflate flate (compLevel z) (dictArg (bt_dict (blockAt r start)))
            (rd_data (bt_reader (blockAt r start)))
            (if bt_last (blockAt r start) then EndClose else EndFlush)).
Proof.
  intros F L. unfold runBlock, compressPartialFile.
  rewrite compressBlock_ok; [reflexivity | assumption | apply F].
Qed.

(** C5: in the large-file path (reads without fault), the block loop
    yields one task per block, the k-th starting at offset
    k * parallelBlockSize; for k > 0 its dictionary is exactly the last
    [windowSize] bytes of the part of the file before that offset, and this
    is what the compressor is primed with; the dictionary is absent exactly
    when the offset is 0. *)
Theorem block_dictionary flate z r :
  (minParallelFileSize ≤ fileSize r < 2 ^ 62)%Z →
  noFaults r →
  levelOk flate (compLevel z) = true →
  ∃ tasks,
    blockTasks r = Some tasks
    ∧ ∀ k t, tasks !! k = Some t →
        bt_start t = (Z.of_nat k * parallelBlockSize)%Z
        ∧ (0 < k →
           bt_dict t
           = lastBytes (Z.to_nat windowSize)
               (firstn (Z.to_nat (bt_start t)) (content r))
           ∧ length (bt_dict t) = Z.to_nat windowSize
           ∧ runBlock flate z t
             = Done (deflate flate (compLevel z) (Some (bt_dict t))
                       (rd_data (bt_reader t))
                       (if bt_last t then EndClose else EndFlush)))
        ∧ (bt_dict t = [] ↔ bt_start t = 0%Z)
        ∧ (bt_start t = 0%Z →
           runBlock flate z t
           = Done (deflate flate (compLevel z) None
                     (rd_data (bt_reader t))
                     (if bt_last t then EndClose else EndFlush))).
Proof.
  intros [Hmin Hmax] F L.
  pose proof minParallelFileSize_val as Vm.
  pose proof parallelBlockSize_val as Vb.
  pose proof windowSize_val as Vw.
  assert (H0 : (0 < fileSize r)%Z) by lia.
  destruct (blockCount_bounds r H0) as (Ha & Hb & Hc & Hd).
  exists (blocksFrom r (blockCount r) 0). split.
  { apply blockTasks_spec. lia. }
  intros k t Hk. apply blocksFrom_lookup in Hk as [Hk ->].
  rewrite Z.add_0_l.
  set (start := (Z.of_nat k * parallelBlockSize)%Z).
  assert (Hstart : (start ≤ fileSize r)%Z).
  { subst start. rewrite Vb in *. lia. }
  split; [reflexivity|].
  change (bt_start (blockAt r start)) with start.
  split; [|split].
  - intros Hpos.
    assert (Hw : (windowSize ≤ start)%Z) by (subst start; rewrite Vb, Vw; lia).
    destruct (blockAt_dict r start F (conj Hw Hstart)) as [Hd1 Hd2].
    split; [exact Hd1|]. split; [exact Hd2|].
    rewrite runBlock_blockAt by assumption.
    unfold dictArg. rewrite Hd2, Vw.
    destruct (0 <? Z.to_nat 32768) eqn:E; [reflexivity|].
    apply Nat.ltb_ge in E. lia.
  - destruct k as [|k].
    + subst start. cbn [Z.of_nat Z.mul]. split; reflexivity.
    + assert (Hw : (windowSize ≤ start)%Z) by (subst start; rewrite Vb, Vw; lia).
      destruct (blockAt_dict r start F (conj Hw Hstart)) as [_ Hd2].
      split.
      * intros E. rewrite E, Vw in Hd2. cbn [length] in Hd2. lia.
      * intros E. subst start. rewrite Vb in E. lia.
  - intros E. rewrite runBlock_blockAt by assumption.
    rewrite E. reflexivity.
Qed.

Lemma bigFile_size : fileSize bigFile = 6291456%Z.
Proof.
  unfold fileSize, bigFile, plainFile. cbn [content].
  rewrite repeat_length. apply Z2Nat.id. lia.
Qed.

Lemma block_dictionary_witness :
  ∃ tasks,
    blockTasks bigFile = Some tasks
    ∧ ∀ k t, tasks !! k = Some t →
        bt_start t = (Z.of_nat k * parallelBlockSize)%Z
        ∧ (0 < k →
           bt_dict t
           = lastBytes (Z.to_nat windowSize)
               (firstn (Z.to_nat (bt_start t)) (content bigFile))
           ∧ length (bt_dict t) = Z.to_nat windowSize
           ∧ runBlock stored.lib (newZipWriter false 5) t
             = Done (deflate stored.lib (compLevel (newZipWriter false 5))
                       (Some (bt_dict t))
                       (rd_data (bt_reader t))
                       (if bt_last t then EndClose else EndFlush)))
        ∧ (bt_dict t = [] ↔ bt_start t = 0%Z)
        ∧ (bt_start t = 0%Z →
           runBlock stored.lib (newZipWriter false 5) t
           = Done (deflate stored.lib (compLevel (newZipWriter false 5)) None
                     (rd_data (bt_reader t))
                     (if bt_last t then EndClose else EndFlush))).
Proof.
  apply (block_dictionary stored.lib (newZipWriter false 5) bigFile).
  - rewrite bigFile_size, minParallelFileSize_val. lia.
  - intros op. reflexivity.
  - reflexivity.
Defined.

(** C6: in the large-file path (reads without fault), the blocks are
    [pre ++ [tl]] where [tl] alone is compressed with last = true, the
    writer being then closed, and covers the end of the file; each block of
    [pre] is compressed with last = false and its writer flushed. *)
Theorem one_final_block flate z r :
  (minParallelFileSize ≤ fileSize r < 2 ^ 62)%Z →
  noFaults r →
  levelOk flate (compLevel z) = true →
  ∃ pre tl,
    blockTasks r = Some (pre ++ [tl])
    ∧ Forall (fun t =>
                bt_last t = false
                ∧ (bt_start t + parallelBlockSize < fileSize r)%Z
                ∧ runBlock flate z t
                  = Done (deflate flate (compLevel z) (dictArg (bt_dict t))
                            (rd_data (bt_reader t)) EndFlush)) pre
    ∧ bt_last tl = true
    ∧ (bt_start tl < fileSize r ≤ bt_start tl + parallelBlockSize)%Z
    ∧ runBlock flate z tl
      = Done (deflate flate (compLevel z) (dictArg (bt_dict tl))
                (rd_data (bt_reader tl)) EndClose).
Proof.
  intros [Hmin Hmax] F L.
  pose proof minParallelFileSize_val as Vm.
  pose proof parallelBlockSize_val as Vb.
  assert (H0 : (0 < fileSize r)%Z) by lia.
  destruct (blockCount_bounds r H0) as (Ha & Hb & Hc & Hd).
  rewrite blockTasks_spec by lia.
  destruct (blockCount r) as [|n] eqn:En; [lia|].
  rewrite blocksFrom_snoc, Z.add_0_l.
  set (start := (Z.of_nat n * parallelBlockSize)%Z).
  assert (Hlo : (start < fileSize r)%Z) by (subst start; rewrite Vb in *; lia).
  assert (Hhi : (fileSize r ≤ start + parallelBlockSize)%Z)
    by (subst start; rewrite Vb in *; lia).
  assert (Hlast : bt_last (blockAt r start) = true).
  { unfold blockAt. cbn [bt_last].
    destruct (start + parallelBlockSize <? fileSize r)%Z eqn:E; [lia|reflexivity]. }
  exists (blocksFrom r n 0), (blockAt r start).
  split; [reflexivity|]. split; [|split; [exact Hlast|split]].
  - apply Forall_forall. intros t Ht.
    apply list_elem_of_lookup in Ht as [k Hk].
    apply blocksFrom_lookup in Hk as [Hk ->]. rewrite Z.add_0_l.
    set (s := (Z.of_nat k * parallelBlockSize)%Z).
    assert (Hs : (s + parallelBlockSize < fileSize r)%Z)
      by (subst s start; rewrite Vb in *; lia).
    assert (Hl : bt_last (blockAt r s) = false).
    { unfold blockAt. cbn [bt_last].
      destruct (s + parallelBlockSize <? fileSize r)%Z eqn:E; [reflexivity|lia]. }
    split; [exact Hl|]. split; [exact Hs|].
    rewrite runBlock_blockAt by assumption. now rewrite Hl.
  - split; [exact Hlo | exact Hhi].
  - rewrite runBlock_blockAt by assumption. now rewrite Hlast.
Qed.

Lemma one_final_block_witness :
  ∃ pre tl,
    blockTasks bigFile = Some (pre ++ [tl])
    ∧ Forall (fun t =>
                bt_last t = false
                ∧ (bt_start t + parallelBlockSize < fileSize bigFile)%Z
                ∧ runBlock stored.lib (newZipWriter false 5) t
                  = Done (deflate stored.lib (compLevel (newZipWriter false 5))
                            (dictArg (bt_dict t))
                            (rd_data (bt_reader t)) EndFlush)) pre
    ∧ bt_last tl = true
    ∧ (bt_start tl < fileSize bigFile ≤ bt_start tl + parallelBlockSize)%Z
    ∧ runBlock stored.lib (newZipWriter false 5) tl
      = Done (deflate stored.lib (compLevel (newZipWriter false 5))
                (dictArg (bt_dict tl))
                (rd_data (bt_reader tl)) EndClose).
Proof.
  apply (one_final_block stored.lib (newZipWriter false 5) bigFile).
  - rewrite bigFile_size, minParallelFileSize_val. lia.
  - intros op. reflexivity.
  - reflexivity.
Defined.

(** ** The names of what is submitted *)

(** Every branch of [writeFile] returns, provided the sizes of the regular
    files fit the arithmetic of the block loop. *)
Lemma writeFile_total flate fs z rel file :
  sizesBounded fs →
  ∃ z' e, writeFile flate fs z rel file = Some (z', e).
Proof.
  intros B. unfold writeFile, writeSymlink.
  destruct (parentDirs_spec z rel) as (z1 & -> & _).
  destruct (fs file) as [[| dest | r |]|] eqn:Hfs.
  - destruct (directories z); [|now eexists _, _].
    rewrite writeDirectory_spec. now eexists _, _.
  - destruct (Readlink fs file); now eexists _, _.
  - destruct (openFails r); [now eexists _, _|].
    destruct (fileSize r >=? minParallelFileSize)%Z eqn:E; [|now eexists _, _].
    pose proof minParallelFileSize_val as Vm.
    rewrite blockTasks_spec by (specialize (B file r Hfs); lia).
    now eexists _, _.
  - now eexists _, _.
  - now eexists _, _.
Qed.

(** C9 (amended): [writeRelFile] returns; when [filepath.Rel] fails on the
    root and the cleaned file, nothing is submitted; otherwise what is
    submitted is named after [rel], the result of [filepath.Rel] (a
    directory entry carries that name, or the parent's, with a slash at
    the end). [rel] is slash-separated and cleaned: its elements are not
    empty; [..] elements occur only as a leading run; [.] occurs only as
    the last element. *)
Theorem writeRelFile_names flate fs z root file :
  sizesBounded fs →
  ∃ z' e,
    writeRelFile flate fs z root file = Some (z', e)
    ∧ ((filepath.Rel root (filepath.Clean file) = None ∧ z' = z
        ∧ e = Some (ErrRel root (filepath.Clean file)))
       ∨ ∃ rel l added,
           filepath.Rel root (filepath.Clean file) = Some rel
           ∧ rel = strings.JoinSlash l
           ∧ relShape l
           ∧ writeOps z' = writeOps z ++ added
           ∧ Forall (fun p => ∀ ze, promised p = Some ze →
                                    nameFor rel (zip.Name (fh ze))) added).
Proof.
  intros B. unfold writeRelFile.
  destruct (filepath.Rel root (filepath.Clean file)) as [rel|] eqn:R.
  - destruct (writeFile_total flate fs z rel (filepath.Clean file) B)
      as (z' & e & H).
    exists z', e. split; [exact H|]. right.
    destruct (Rel_shape _ _ _ R) as (l & Hl & Hs).
    destruct (writeFile_entry_names _ _ _ _ _ _ _ H) as (added & Ha & Hf).
    now exists rel, l, added.
  - eexists _, _. split; [reflexivity|]. now left.
Qed.

Lemma writeRelFile_names_witness :
  ∃ z' e,
    writeRelFile stored.lib fsDemo (newZipWriter false 5) "a" "b/c.txt"
    = Some (z', e)
    ∧ ((filepath.Rel "a" (filepath.Clean "b/c.txt") = None
        ∧ z' = newZipWriter false 5
        ∧ e = Some (ErrRel "a" (filepath.Clean "b/c.txt")))
       ∨ ∃ rel l added,
           filepath.Rel "a" (filepath.Clean "b/c.txt") = Some rel
           ∧ rel = strings.JoinSlash l
           ∧ relShape l
           ∧ writeOps z' = writeOps (newZipWriter false 5) ++ added
           ∧ Forall (fun p => ∀ ze, promised p = Some ze →
                                    nameFor rel (zip.Name (fh ze))) added).
Proof.
  apply (writeRelFile_names stored.lib fsDemo (newZipWriter false 5)
           "a" "b/c.txt").
  intros path r. unfold fsDemo.
  repeat (destruct (String.eqb path _);
          [intros [= <-]; vm_compute; reflexivity|]);
    discriminate.
Defined.

(** ** The writer loop *)

Lemma omap_id_Some {A} (l : list A) : omap id (List.map Some l) = l.
Proof. induction l as [|x l IH]; [reflexivity|]. cbn. now rewrite IH. Qed.

Lemma omap_id_app_Some {A} (l : list A) (rest : list (option A)) :
  omap id (List.map Some l ++ rest) = l ++ omap id rest.
Proof. induction l as [|x l IH]; [reflexivity|]. cbn. now rewrite IH. Qed.

Lemma entryCalls_unfold op w c :
  openSink op = (w, c) →
  entryCalls op
  = match futureReaders op with
    | None => [c] ++ closeSink (Some w)
    | Some rs => [c] ++ payloads rs ++ closeSink (Some w)
    end.
Proof. intros H. unfold entryCalls. now rewrite H. Qed.

Lemma flat_map_snoc {A B} (f : A → list B) (l : list A) (x : A) :
  flat_map f (l ++ [x]) = flat_map f l ++ f x.
Proof. rewrite flat_map_app. cbn. now rewrite app_nil_r. Qed.

Lemma writerInv_init ops : writerInv ops (initWriter ops).
Proof. now apply (inv_idle _ _ []). Qed.

Ltac inv_close := cbn; try assumption; try reflexivity.

(** Every turn of the loop keeps the invariant. *)
Lemma writerInv_turn ops s s' :
  writerInv ops s → turn s s' → writerInv ops s'.
Proof.
  intros Inv [Hd Hr]. unfold recv, select in Hr.
  destruct Inv as
    [processed Hops Hc Hw Hrs Hrd Hz
    |processed p Hops Hc Hw Hrs Hrd Hz
    |processed p op w c consumed remaining Hops Hp Ho Hf Hc Hw Hrs Hz].
  - rewrite Hrd, Hrs, Hc in Hr.
    destruct (queue s) as [|p rest] eqn:Q; injection Hr as <-.
    + apply (inv_idle _ _ processed); inv_close.
    + apply (inv_header _ _ processed p); inv_close.
  - rewrite Hrd, Hrs, Hc in Hr.
    destruct (promised p) as [op|] eqn:P; [|discriminate].
    destruct (openSink op) as [w c] eqn:O.
    destruct (futureReaders op) as [rs|] eqn:F; injection Hr as <-.
    + apply (inv_entry _ _ processed p op w c [] rs); inv_close.
      now rewrite Hz.
    + apply (inv_idle _ _ (processed ++ [p])); inv_close.
      * now rewrite <- app_assoc.
      * rewrite flat_map_snoc, Hz. unfold promiseCalls. rewrite P.
        rewrite (entryCalls_unfold op w c O), F. reflexivity.
  - unfold awaited in Hf.
    destruct (currentReader s) as [cur|] eqn:Hrd.
    + destruct cur as [data|]; [|discriminate]. injection Hr as <-.
      apply (inv_entry _ _ processed p op w c (consumed ++ [data]) remaining);
        inv_close.
      * unfold awaited. cbn. rewrite Hf, map_app, <- app_assoc. reflexivity.
      * rewrite Hz, map_app, <- !app_assoc. reflexivity.
    + rewrite Hrs in Hr. destruct remaining as [|cur rem]; injection Hr as <-.
      * apply (inv_idle _ _ (processed ++ [p])); inv_close.
        -- now rewrite <- app_assoc.
        -- rewrite flat_map_snoc, Hz, Hw. unfold promiseCalls. rewrite Hp.
           rewrite (entryCalls_unfold op w c Ho), Hf. unfold payloads.
           cbn [app]. rewrite app_nil_r, omap_id_Some, <- !app_assoc.
           reflexivity.
      * apply (inv_entry _ _ processed p op w c consumed rem); inv_close.
Qed.

Lemma writerInv_reachable ops s : reachable ops s → writerInv ops s.
Proof.
  unfold reachable. revert s. apply rtc_ind_r.
  - apply writerInv_init.
  - intros y z _ Hyz IH. eapply writerInv_turn; eassumption.
Qed.

Lemma promiseCalls_prefix p op w c consumed rest :
  promised p = Some op →
  openSink op = (w, c) →
  futureReaders op = Some (List.map Some consumed ++ rest) →
  ([c] ++ List.map zip.Write consumed) `prefix_of` promiseCalls p.
Proof.
  intros Hp Ho Hf. unfold promiseCalls. rewrite Hp.
  rewrite (entryCalls_unfold op w c Ho), Hf. unfold payloads.
  rewrite omap_id_app_Some, map_app, <- !app_assoc.
  eexists. rewrite <- !app_assoc. reflexivity.
Qed.

(** C7: in every state the writer loop can reach, the calls made on the
    archive are the complete entries of a front part [processed] of the
    submitted promises, in submission order, followed by a prefix
    [current] of the entry of the next promise; nothing of a later promise
    is written. The loop listens on [writeOps] for a new promise only when
    no promise, no sink, no block sequence and no block payload is
    current, and then every promise taken so far is written completely. *)
Theorem archive_order ops s :
  reachable ops s →
  ∃ processed rest current,
    ops = processed ++ rest
    ∧ zipw s = flat_map promiseCalls processed ++ current
    ∧ ((rest = queue s ∧ current = [])
       ∨ ∃ p, rest = p :: queue s ∧ current `prefix_of` promiseCalls p)
    ∧ (select s = SelWriteOps →
       rest = queue s ∧ current = []
       ∧ currentWriteOpChan s = None ∧ currentWriter s = None
       ∧ currentReaders s = None ∧ currentReader s = None).
Proof.
  intros H. apply writerInv_reachable in H.
  destruct H as
    [processed Hops Hc Hw Hrs Hrd Hz
    |processed p Hops Hc Hw Hrs Hrd Hz
    |processed p op w c consumed remaining Hops Hp Ho Hf Hc Hw Hrs Hz].
  - exists processed, (queue s), []. rewrite app_nil_r.
    repeat split; try assumption. now left.
  - exists processed, (p :: queue s), []. rewrite app_nil_r.
    split; [assumption|]. split; [assumption|]. split.
    + right. exists p. split; [reflexivity | apply prefix_nil].
    + unfold select. rewrite Hrd, Hrs, Hc. discriminate.
  - exists processed, (p :: queue s), ([c] ++ List.map zip.Write consumed).
    split; [assumption|]. split; [assumption|]. split.
    + right. exists p. split; [reflexivity|].
      eapply promiseCalls_prefix; eassumption.
    + unfold select. rewrite Hrs. destruct (currentReader s); discriminate.
Qed.

Lemma archive_order_witness :
  ∃ processed rest current,
    demoOps = processed ++ rest
    ∧ zipw demoState = flat_map promiseCalls processed ++ current
    ∧ ((rest = queue demoState ∧ current = [])
       ∨ ∃ p, rest = p :: queue demoState
              ∧ current `prefix_of` promiseCalls p)
    ∧ (select demoState = SelWriteOps →
       rest = queue demoState ∧ current = []
       ∧ currentWriteOpChan demoState = None ∧ currentWriter demoState = None
       ∧ currentReaders demoState = None ∧ currentReader demoState = None).
Proof.
  apply (archive_order demoOps demoState).
  unfold reachable.
  eapply rtc_l; [split; reflexivity|].
  eapply rtc_l; [split; reflexivity|].
  eapply rtc_l; [split; reflexivity|].
  apply rtc_refl.
Defined.

(** *** The loop runs to the end when everything is delivered *)

Lemma writerLoop_turn fuel errs s s' :
  done s = false → recv s = Some s' →
  writerLoop (S fuel) errs s = writerLoop fuel errs s'.
Proof. intros Hd Hr. cbn [writerLoop]. now rewrite Hd, Hr. Qed.

Lemma run_payloads errs q w :
  ∀ datas log fuel,
    writerLoop (2 * length datas + 1 + fuel) errs
      (entryState q w (List.map Some datas) log)
    = writerLoop fuel errs
        (idleState q false
           (log ++ List.map zip.Write datas ++ closeSink (Some w))).
Proof.
  induction datas as [|d ds IH]; intros log fuel.
  - cbn [length Nat.mul Nat.add List.map app].
    erewrite writerLoop_turn; [reflexivity | reflexivity | reflexivity].
  - replace (2 * length (d :: ds) + 1 + fuel)
      with (S (S (2 * length ds + 1 + fuel))) by (cbn [length]; lia).
    erewrite writerLoop_turn; [| reflexivity | reflexivity].
    erewrite writerLoop_turn; [| reflexivity | reflexivity].
    cbn [queue currentWriteOpChan currentWriter currentReaders currentReader
         done zipw entryState].
    change (writerLoop (2 * length ds + 1 + fuel) errs
              (entryState q w (List.map Some ds) (log ++ [zip.Write d]))
            = writerLoop fuel errs
                (idleState q false
                   (log ++ List.map zip.Write (d :: ds) ++ closeSink (Some w)))).
    rewrite IH. cbn [List.map app]. now rewrite <- !app_assoc.
Qed.

Lemma run_promise errs p q log fuel :
  fullyDelivered p →
  writerLoop (promiseTurns p + fuel) errs (idleState (p :: q) false log)
  = writerLoop fuel errs (idleState q false (log ++ promiseCalls p)).
Proof.
  intros (op & Hp & Hf). unfold promiseTurns, promiseCalls. rewrite Hp.
  destruct (openSink op) as [w c] eqn:Ho.
  rewrite (entryCalls_unfold op w c Ho).
  destruct Hf as [Hf|[datas Hf]]; rewrite Hf.
  - change (2 + fuel) with (S (S fuel)).
    erewrite writerLoop_turn; [| reflexivity | reflexivity].
    erewrite writerLoop_turn; [reflexivity | reflexivity |].
    unfold recv, select, idleState.
    cbn [queue currentWriteOpChan currentWriter currentReaders currentReader
         done zipw].
    rewrite Hp, Ho, Hf. reflexivity.
  - rewrite length_map.
    replace (3 + 2 * length datas + fuel)
      with (S (S (2 * length datas + 1 + fuel))) by lia.
    erewrite writerLoop_turn; [| reflexivity | reflexivity].
    erewrite writerLoop_turn; [| reflexivity |].
    2:{ unfold recv, select, idleState.
        cbn [queue currentWriteOpChan currentWriter currentReaders
             currentReader done zipw].
        rewrite Hp, Ho, Hf. reflexivity. }
    cbn [queue currentWriteOpChan currentWriter currentReaders currentReader
         done zipw idleState].
    change (writerLoop (2 * length datas + 1 + fuel) errs
              (entryState q w (List.map Some datas) (log ++ [c]))
            = writerLoop fuel errs
                (idleState q false
                   (log ++ [c] ++ payloads (List.map Some datas)
                        ++ closeSink (Some w)))).
    rewrite run_payloads. unfold payloads. rewrite omap_id_Some.
    now rewrite <- !app_assoc.
Qed.

Lemma run_all errs :
  ∀ ops log fuel,
    Forall fullyDelivered ops →
    writerLoop (list_sum (List.map promiseTurns ops) + fuel) errs
      (idleState ops false log)
    = writerLoop fuel errs
        (idleState [] false (log ++ flat_map promiseCalls ops)).
Proof.
  induction ops as [|p ops IH]; intros log fuel H.
  - cbn. now rewrite app_nil_r.
  - inversion H as [|? ? Hp Hops]; subst.
    change (list_sum (List.map promiseTurns (p :: ops)))
      with (promiseTurns p + list_sum (List.map promiseTurns ops)).
    cbn [flat_map]. rewrite <- Nat.add_assoc.
    rewrite run_promise by assumption.
    rewrite IH by assumption. now rewrite <- app_assoc.
Qed.

(** When every promise is delivered in full and no error is posted, the
    loop ends within [writerFuel] turns with the complete archive. *)
Lemma writerLoop_complete ops :
  Forall fullyDelivered ops →
  writerLoop (writerFuel ops) [] (initWriter ops)
  = Some (Archive (flat_map promiseCalls ops ++ [zip.Close])).
Proof.
  intros H. unfold writerFuel.
  rewrite <- Nat.add_1_r.
  change (initWriter ops) with (idleState ops false []).
  rewrite run_all by assumption. reflexivity.
Qed.

(** ** Read errors in the large-file path *)

Lemma writeFile_large flate fs z rel file r :
  fs file = Some (Regular r) →
  openFails r = false →
  directories z = false →
  (minParallelFileSize ≤ fileSize r < 2 ^ 62)%Z →
  writeFile flate fs z rel file
  = Some
      (let results :=
         List.map (runBlock flate z) (blocksFrom r (blockCount r) 0) in
       let crc :=
         crcFile r
           {| fh := {| zip.Name := rel;
                       zip.Method := zip.Deflate;
                       zip.CRC32 := 0;
                       zip.UncompressedSize64 := fileSize r;
                       zip.Mode := 0;
                       zip.ModTime := time z |};
              futureReaders := Some (List.map delivered results) |} in
       postErrors (enqueue z (Pending (delivered crc)))
         (posted crc ++ List.concat (List.map posted results)) false,
       None).
Proof.
  intros Hfs Ho Hd [Hmin Hmax]. unfold writeFile.
  rewrite Hfs, (parentDirs_disabled z rel Hd), Ho.
  pose proof minParallelFileSize_val as Vm.
  destruct (fileSize r >=? minParallelFileSize)%Z eqn:E; [|lia].
  rewrite blockTasks_spec by lia. reflexivity.
Qed.

Lemma runBlock_onlyDictFaults flate z r start :
  onlyDictFaults r →
  levelOk flate (compLevel z) = true →
  runBlock flate z (blockAt r start)
  = Done (blockPayload flate z (blockAt r start)).
Proof.
  intros [_ F] L. unfold runBlock, compressPartialFile.
  rewrite compressBlock_ok; [reflexivity | assumption | apply F].
Qed.

Lemma results_onlyDictFaults flate z r n :
  onlyDictFaults r →
  levelOk flate (compLevel z) = true →
  ∀ start,
    List.map (runBlock flate z) (blocksFrom r n start)
    = List.map (fun t => Done (blockPayload flate z t)) (blocksFrom r n start).
Proof.
  intros F L. induction n as [|n IH]; intros start; [reflexivity|].
  cbn [blocksFrom List.map].
  now rewrite runBlock_onlyDictFaults, IH.
Qed.

Lemma posted_Done {A B} (f : A → B) (l : list A) :
  List.concat (List.map posted (List.map (fun t => Done (f t)) l)) = [].
Proof. induction l as [|x l IH]; [reflexivity|]. cbn. exact IH. Qed.

Lemma delivered_Done {A B} (f : A → B) (l : list A) :
  List.map delivered (List.map (fun t => Done (f t)) l)
  = List.map Some (List.map f l).
Proof. induction l as [|x l IH]; [reflexivity|]. cbn. now rewrite IH. Qed.

Lemma archiveNames_app (a b : list zip.call) :
  archiveNames (a ++ b) = archiveNames a ++ archiveNames b.
Proof. unfold archiveNames. apply omap_app. Qed.

Lemma archiveNames_Write (l : list bytes) :
  archiveNames (List.map zip.Write l) = [].
Proof. induction l as [|x l IH]; [reflexivity|]. exact IH. Qed.

(** A large file whose only failing reads are reads of dictionaries: no
    error is posted or returned, the CRC task delivers the entry and every
    block task its payload. *)
Lemma writeFile_dict_faults flate fs z rel file r :
  fs file = Some (Regular r) →
  openFails r = false →
  directories z = false →
  (minParallelFileSize ≤ fileSize r < 2 ^ 62)%Z →
  onlyDictFaults r →
  levelOk flate (compLevel z) = true →
  writeFile flate fs z rel file
  = Some ({| time := time z; createdDirs := createdDirs z;
             directories := directories z; compLevel := compLevel z;
             errors := errors z ++ [];
             writeOps :=
               writeOps z
               ++ [Pending
                     (Some
                        {| fh := {| zip.Name := rel;
                                    zip.Method := zip.Deflate;
                                    zip.CRC32 := crc32.Sum32 (content r);
                                    zip.UncompressedSize64 := fileSize r;
                                    zip.Mode := 0;
                                    zip.ModTime := time z |};
                           futureReaders :=
                             Some (List.map Some
                                     (List.map (blockPayload flate z)
                                        (blocksFrom r (blockCount r) 0))) |})];
             crashed := crashed z || false |}, None).
Proof.
  intros Hfs Ho Hd Hsz F L.
  rewrite (writeFile_large flate fs z rel file r Hfs Ho Hd Hsz).
  cbv zeta.
  rewrite (results_onlyDictFaults flate z r (blockCount r) F L 0%Z).
  rewrite posted_Done, delivered_Done.
  unfold crcFile, Copy, wholeReader. cbn [rd_fault rd_data rd_op].
  destruct F as [-> _]. reflexivity.
Qed.

(** A build of the one file [big.bin] under the same conditions ends with
    a complete archive and a nil error. *)
Lemma write_dict_faults flate r level :
  openFails r = false →
  (minParallelFileSize ≤ fileSize r < 2 ^ 62)%Z →
  onlyDictFaults r →
  levelOk flate level = true →
  ∃ log,
    write flate (fsBig r) (newZipWriter false level) [fileArgHere "big.bin"] ""
    = Some (Archive log)
    ∧ archiveNames log = ["big.bin"].
Proof.
  intros Ho Hsz F L.
  unfold write, plan, planFiles, writeRelFile, fileArgHere.
  cbn [relativeRoot argFile].
  change (filepath.Clean "big.bin") with "big.bin".
  change (filepath.Rel "." "big.bin") with (Some "big.bin").
  cbv iota beta.
  rewrite (writeFile_dict_faults flate (fsBig r) (newZipWriter false level)
             "big.bin" "big.bin" r) by (try assumption; reflexivity).
  cbn [newZipWriter time createdDirs directories compLevel errors writeOps
       crashed app orb String.eqb negb].
  rewrite writerLoop_complete.
  - eexists. split; [reflexivity|].
    unfold promiseCalls, entryCalls, openSink, payloads.
    cbn [flat_map promised fh futureReaders zip.Method].
    rewrite omap_id_Some.
    destruct (decide (zip.Deflate = zip.Deflate)) as [_|N]; [|now destruct N].
    rewrite !archiveNames_app, archiveNames_Write. reflexivity.
  - constructor; [|constructor].
    eexists. split; [reflexivity|]. right. eexists. reflexivity.
Qed.

Lemma bigFileDictFault_size : fileSize bigFileDictFault = 6291456%Z.
Proof.
  unfold fileSize, bigFileDictFault. cbn [content].
  rewrite repeat_length. apply Z2Nat.id. lia.
Qed.

(** C3 (the code at the failing input): a 6 MiB file whose one failing
    read is that of the dictionary of its second block. The read fails
    before delivering a byte, the block is compressed without dictionary,
    and the build ends with a complete archive and a nil error. *)
Theorem dictionary_read_error_dropped :
  fault bigFileDictFault (OpDict 1048576) = Some 0
  ∧ bt_dict (blockAt bigFileDictFault 1048576) = []
  ∧ ∃ log,
      write stored.lib (fsBig bigFileDictFault) (newZipWriter false 5)
        [fileArgHere "big.bin"] ""
      = Some (Archive log)
      ∧ archiveNames log = ["big.bin"].
Proof.
  split; [reflexivity|]. split; [reflexivity|].
  apply write_dict_faults.
  - reflexivity.
  - rewrite bigFileDictFault_size, minParallelFileSize_val. lia.
  - split; [reflexivity | intros start; reflexivity].
  - reflexivity.
Qed.

(** In the small-file path the error of the compressing pass is not looked
    at either: the task panics, nothing is posted on [z.errors]. *)
Lemma compressWholeFile_read_error flate z rel r n :
  fault r OpCrc = None →
  fault r OpSeekCompress = None →
  fault r OpCompress = Some n →
  compressWholeFile flate z rel r = Crashed.
Proof.
  intros H1 H2 H3. unfold compressWholeFile, compressBlock, Copy, wholeReader.
  cbn [rd_fault rd_data rd_op]. rewrite H1, H2, H3.
  now destruct (negb (levelOk flate (compLevel z))).
Qed.

(** ** The reference compressor: the blocks of a large file inflate to
    the file *)

Lemma byte_val_of (n : Z) : (0 ≤ n < 256)%Z → byte_val (stored.byte_of n) = n.
Proof.
  intros H. unfold stored.byte_of, byte_val.
  destruct (Byte.of_N (Z.to_N n)) as [b|] eqn:E.
  - apply Byte.to_of_N in E. rewrite E. lia.
  - apply Byte.of_N_None_iff in E. lia.
Qed.

Lemma le16_val (n : Z) :
  (0 ≤ n ≤ 65535)%Z →
  ∃ b0 b1, stored.le16 n = [b0; b1]
           ∧ (byte_val b0 + 256 * byte_val b1)%Z = n.
Proof.
  intros H. unfold stored.le16. eexists _, _. split; [reflexivity|].
  rewrite !byte_val_of.
  - pose proof (Z.div_mod n 256 ltac:(lia)).
    rewrite (Z.mod_small (n / 256) 256); [lia|].
    split; [apply Z.div_pos; lia | apply Z.div_lt_upper_bound; lia].
  - apply Z.mod_pos_bound. lia.
  - apply Z.mod_pos_bound. lia.
Qed.

Lemma inflate_header (f : bool) (len : Z) (rest : bytes) :
  (0 ≤ len ≤ 65535)%Z →
  stored.inflateFrom stored.AtHeader (stored.header f len ++ rest)
  = match Z.to_nat len with
    | O => if f then Some [] else stored.inflateFrom stored.AtHeader rest
    | S k => stored.inflateFrom (stored.InData f (S k)) rest
    end.
Proof.
  intros H. unfold stored.header.
  destruct (le16_val len H) as (a0 & a1 & -> & Ha).
  destruct (le16_val (65535 - len) ltac:(lia)) as (b0 & b1 & -> & Hb).
  cbn [app stored.inflateFrom].
  assert (Hh : ((byte_val (if f then x01 else x00) =? 0)%Z = negb f)
               ∧ (byte_val (if f then x01 else x00) =? 1)%Z = f)
    by (destruct f; split; reflexivity).
  destruct Hh as [H0 H1]. rewrite H0.
  destruct f; cbn [negb].
  - rewrite H1, Ha.
    replace (len + (byte_val b0 + 256 * byte_val b1) =? 65535)%Z with true
      by (symmetry; apply Z.eqb_eq; lia).
    reflexivity.
  - rewrite Ha.
    replace (len + (byte_val b0 + 256 * byte_val b1) =? 65535)%Z with true
      by (symmetry; apply Z.eqb_eq; lia).
    reflexivity.
Qed.

Lemma inflate_data (f : bool) (rest : bytes) :
  ∀ chunk b,
    stored.inflateFrom (stored.InData f (S (length chunk))) ((b :: chunk) ++ rest)
    = option_map (app (b :: chunk))
        (if f then Some [] else stored.inflateFrom stored.AtHeader rest).
Proof.
  induction chunk as [|c cs IH]; intros b.
  - cbn [length app stored.inflateFrom].
    destruct f; [reflexivity|].
    now destruct (stored.inflateFrom stored.AtHeader rest).
  - cbn [length]. change ((b :: c :: cs) ++ rest) with (b :: ((c :: cs) ++ rest)).
    cbn [stored.inflateFrom]. rewrite IH.
    destruct f; [reflexivity|].
    now destruct (stored.inflateFrom stored.AtHeader rest).
Qed.

Lemma maxStoreBlockSize_val : Z.of_nat stored.maxStoreBlockSize = 65535%Z.
Proof. unfold stored.maxStoreBlockSize. lia. Qed.

(** The stored blocks of [data], not final, put back [data]. *)
Lemma inflate_blocks (rest : bytes) :
  ∀ fuel data,
    length data ≤ fuel →
    stored.inflateFrom stored.AtHeader (stored.blocks fuel data ++ rest)
    = option_map (app data) (stored.inflateFrom stored.AtHeader rest).
Proof.
  induction fuel as [|fuel IH]; intros data Hlen.
  - destruct data; [|cbn in Hlen; lia].
    cbn. now destruct (stored.inflateFrom stored.AtHeader rest).
  - destruct data as [|x data].
    + cbn. now destruct (stored.inflateFrom stored.AtHeader rest).
    + cbn [stored.blocks].
      pose proof maxStoreBlockSize_val as Hm.
      destruct stored.maxStoreBlockSize as [|m] eqn:Em; [lia|].
      set (chunk := firstn (S m) (x :: data)).
      assert (Hc : chunk = x :: firstn m data) by reflexivity.
      assert (Hl : length (firstn m data) ≤ m) by apply firstn_le_length.
      rewrite <- !app_assoc.
      rewrite inflate_header by (rewrite Hc; cbn [length]; lia).
      rewrite Nat2Z.id. rewrite Hc at 1. cbn [length].
      rewrite Hc at 1. rewrite inflate_data.
      rewrite IH.
      * destruct (stored.inflateFrom stored.AtHeader rest); [|reflexivity].
        cbn [option_map]. f_equal. rewrite app_assoc. f_equal.
        rewrite <- Hc. apply firstn_skipn.
      * rewrite length_skipn. cbn [length] in *. lia.
Qed.

Lemma inflate_flushed (level : Z) (dict : option bytes) (data rest : bytes) :
  stored.inflateFrom stored.AtHeader
    (stored.encode level dict data EndFlush ++ rest)
  = option_map (app data) (stored.inflateFrom stored.AtHeader rest).
Proof.
  unfold stored.encode. rewrite <- app_assoc.
  rewrite inflate_blocks by lia.
  now rewrite inflate_header by lia.
Qed.

Lemma inflate_closed (level : Z) (dict : option bytes) (data : bytes) :
  stored.inflate (stored.encode level dict data EndClose) = Some data.
Proof.
  unfold stored.inflate, stored.encode.
  rewrite inflate_blocks by lia.
  rewrite <- (app_nil_r (stored.header true 0)).
  rewrite inflate_header by lia. rewrite Z2Nat.inj_0.
  cbn [option_map]. now rewrite app_nil_r.
Qed.

Lemma inflate_flushed_then_closed (level : Z) (dict : blockTask → option bytes)
    (data : blockTask → bytes) (tl : blockTask) :
  ∀ pre,
    stored.inflate
      (List.concat
         (List.map (fun t => stored.encode level (dict t) (data t) EndFlush) pre)
       ++ stored.encode level (dict tl) (data tl) EndClose)
    = Some (List.concat (List.map data pre) ++ data tl).
Proof.
  induction pre as [|t pre IH].
  - apply inflate_closed.
  - cbn [List.map List.concat]. unfold stored.inflate in *.
    rewrite <- !app_assoc, inflate_flushed, IH. reflexivity.
Qed.

Lemma firstn_add_skipn {A} (a c : nat) (l : list A) :
  firstn (a + c) l = firstn a l ++ firstn c (skipn a l).
Proof.
  revert l. induction a as [|a IH]; intros l; [reflexivity|].
  destruct l as [|x l]; cbn [Nat.add firstn skipn app].
  - now rewrite firstn_nil.
  - now rewrite IH.
Qed.

(** The blocks read consecutive parts of the file. *)
Lemma blocksFrom_data r n :
  ∀ start,
    (0 ≤ start)%Z →
    List.concat (List.map blockData (blocksFrom r n start))
    = firstn (n * Z.to_nat parallelBlockSize)
        (skipn (Z.to_nat start) (content r)).
Proof.
  induction n as [|n IH]; intros start H0; [reflexivity|].
  cbn [blocksFrom List.map List.concat].
  pose proof parallelBlockSize_val as Vb.
  rewrite IH by lia.
  change (S n * Z.to_nat parallelBlockSize)
    with (Z.to_nat parallelBlockSize + n * Z.to_nat parallelBlockSize).
  rewrite firstn_add_skipn, skipn_skipn.
  replace (Z.to_nat (start + parallelBlockSize))
    with (Z.to_nat parallelBlockSize + Z.to_nat start) by lia.
  reflexivity.
Qed.

Lemma blockTasks_data r :
  (0 < fileSize r < 2 ^ 62)%Z →
  List.concat (List.map blockData (blocksFrom r (blockCount r) 0)) = content r.
Proof.
  intros [H0 H1]. destruct (blockCount_bounds r H0) as (Ha & _).
  rewrite blocksFrom_data by lia.
  change (Z.to_nat 0) with 0. cbn [skipn].
  apply firstn_all2. unfold fileSize in *.
  pose proof parallelBlockSize_val as Vb. rewrite Vb in *. nia.
Qed.

Lemma blocksFrom_not_last r n :
  ∀ start,
    (0 ≤ start)%Z →
    (start + Z.of_nat n * parallelBlockSize < fileSize r)%Z →
    Forall (fun t => bt_last t = false) (blocksFrom r n start).
Proof.
  pose proof parallelBlockSize_val as Vb.
  induction n as [|n IH]; intros start H0 H; [constructor|].
  cbn [blocksFrom]. constructor.
  - unfold blockAt. cbn [bt_last].
    destruct (start + parallelBlockSize <? fileSize r)%Z eqn:E;
      [reflexivity | rewrite Vb in *; lia].
  - apply IH; rewrite Vb in *; lia.
Qed.

Lemma blockPayload_stored z t :
  blockPayload stored.lib z t
  = stored.encode (compLevel z) (dictArg (bt_dict t)) (blockData t)
      (if bt_last t then EndClose else EndFlush).
Proof. reflexivity. Qed.

(** With the reference compressor, the payloads of the blocks of a large
    file, concatenated in the order of the blocks, are a stream that
    inflates to the bytes of the file. *)
Lemma stored_blocks_inflate z r :
  (minParallelFileSize ≤ fileSize r < 2 ^ 62)%Z →
  noFaults r →
  levelOk stored.lib (compLevel z) = true →
  ∃ tasks,
    blockTasks r = Some tasks
    ∧ List.map (runBlock stored.lib z) tasks
      = List.map (fun t => Done (blockPayload stored.lib z t)) tasks
    ∧ stored.inflate (List.concat (List.map (blockPayload stored.lib z) tasks))
      = Some (content r).
Proof.
  intros [Hmin Hmax] F L.
  pose proof minParallelFileSize_val as Vm.
  pose proof parallelBlockSize_val as Vb.
  assert (H0 : (0 < fileSize r)%Z) by lia.
  destruct (blockCount_bounds r H0) as (Ha & Hb & Hc & Hd).
  exists (blocksFrom r (blockCount r) 0).
  split; [apply blockTasks_spec; lia|]. split.
  { apply results_onlyDictFaults; [|assumption]. split; intros; apply F. }
  rewrite <- (blockTasks_data r) by lia.
  destruct (blockCount r) as [|n] eqn:En; [lia|].
  rewrite blocksFrom_snoc, Z.add_0_l.
  set (tl := blockAt r (Z.of_nat n * parallelBlockSize)).
  assert (Hpre : Forall (fun t => bt_last t = false) (blocksFrom r n 0))
    by (apply blocksFrom_not_last; rewrite ?Vb in *; lia).
  assert (Htl : bt_last tl = true).
  { subst tl. unfold blockAt. cbn [bt_last].
    destruct (_ <? _)%Z eqn:E; [rewrite Vb in *; lia | reflexivity]. }
  clearbody tl.
  rewrite !map_app, !concat_app. cbn [List.map List.concat].
  rewrite !app_nil_r.
  rewrite (blockPayload_stored z tl), Htl.
  rewrite (map_ext_in (blockPayload stored.lib z)
             (fun t => stored.encode (compLevel z) (dictArg (bt_dict t))
                         (blockData t) EndFlush)).
  - exact (inflate_flushed_then_closed (compLevel z)
             (fun t => dictArg (bt_dict t)) blockData tl (blocksFrom r n 0)).
  - intros t Ht. rewrite Forall_forall in Hpre.
    rewrite blockPayload_stored, (Hpre t); [reflexivity|].
    now apply list_elem_of_In.
Qed.

(** What [writeDirectory] submits it also records, so that a later call
    for the same name submits nothing ([writeDirectory_no_repeat]). *)
Lemma writeDirectory_records z dir z' :
  writeDirectory z dir = Some z' →
  writeOps z' ≠ writeOps z →
  dirCreated z' (dirName dir) = true.
Proof.
  rewrite writeDirectory_spec. intros [= <-].
  destruct (dirWanted z (dirName dir)); [|congruence].
  intros _. unfold dirCreated, addDir, enqueue, markDir. cbn [createdDirs].
  now rewrite lookup_insert_eq.
Qed.

(** ** Directory entries are submitted at most once *)

Lemma dirNames_snoc_dir ops z d :
  dirNames (ops ++ [Ready (dirEntry z d)]) = dirNames ops ++ [d].
Proof. unfold dirNames. now rewrite omap_app. Qed.

Lemma dirNames_snoc_other ops p :
  notDir p → dirNames (ops ++ [p]) = dirNames ops.
Proof.
  intros H. unfold dirNames. rewrite omap_app. cbn.
  pose proof (H) as H'. unfold notDir in H'.
  destruct (promised p) as [ze|]; [|now rewrite app_nil_r].
  rewrite (H' ze eq_refl). now rewrite app_nil_r.
Qed.

Lemma dirsOnce_addDir z d :
  dirsOnce z → dirCreated z d = false → dirsOnce (addDir z d).
Proof.
  intros [Hn Hc] Hd. unfold dirsOnce, addDir, enqueue. cbn [writeOps].
  change (writeOps (markDir z d)) with (writeOps z).
  change (dirEntry (markDir z d) d) with (dirEntry z d).
  rewrite dirNames_snoc_dir. split.
  - apply NoDup_app. split; [assumption|]. split.
    + intros x Hx Hx'. apply list_elem_of_singleton in Hx'. subst x.
      apply Hc in Hx. congruence.
    + apply NoDup_singleton.
  - intros x Hx. unfold dirCreated, markDir. cbn [createdDirs].
    destruct (decide (d = x)) as [->|Hne].
    + now rewrite lookup_insert_eq.
    + rewrite lookup_insert_ne by assumption.
      apply elem_of_app in Hx as [Hx|Hx].
      * apply (Hc x Hx).
      * apply list_elem_of_singleton in Hx. congruence.
Qed.

Lemma dirsOnce_enqueue z p :
  dirsOnce z → notDir p → dirsOnce (enqueue z p).
Proof.
  intros [Hn Hc] Hp. unfold dirsOnce, enqueue. cbn [writeOps].
  rewrite dirNames_snoc_other by assumption.
  split; [assumption|]. exact Hc.
Qed.

Lemma dirsOnce_postErrors z es c :
  dirsOnce z → dirsOnce (postErrors z es c).
Proof. intros H. exact H. Qed.

Lemma dirsOnce_writeDirectory z dir z' :
  dirsOnce z → writeDirectory z dir = Some z' → dirsOnce z'.
Proof.
  intros H. rewrite writeDirectory_spec. intros [= <-].
  destruct (dirWanted z (dirName dir)) eqn:W; [|assumption].
  apply dirsOnce_addDir; [assumption|].
  unfold dirWanted in W. apply andb_prop in W as [_ W].
  now apply negb_true_iff in W.
Qed.

Lemma dirsOnce_parentDirs z rel z' :
  dirsOnce z → parentDirs z rel = Some z' → dirsOnce z'.
Proof.
  intros H. unfold parentDirs. destruct (directories z).
  - now apply dirsOnce_writeDirectory.
  - now intros [= <-].
Qed.

Lemma crcFile_mode r ze ze' :
  delivered (crcFile r ze) = Some ze' → zip.Mode (fh ze') = zip.Mode (fh ze).
Proof.
  unfold crcFile. destruct (Copy _); [|discriminate]. now intros [= <-].
Qed.

Lemma compressWholeFile_mode flate z rel r ze :
  delivered (compressWholeFile flate z rel r) = Some ze →
  zip.Mode (fh ze) = 0%Z.
Proof.
  unfold compressWholeFile.
  destruct (Copy _); [|discriminate].
  destruct (fault r OpSeekCompress); [discriminate|].
  destruct (compressBlock _ _ _ _ _); [|discriminate].
  destruct (_ <? _)%Z; [now intros [= <-]|].
  destruct (fault r OpSeekRaw); [discriminate|].
  destruct (ReadAll _) as [buf [e|]]; [discriminate|].
  now intros [= <-].
Qed.

Lemma dirsOnce_writeFile flate fs z rel file z' e :
  dirsOnce z → writeFile flate fs z rel file = Some (z', e) → dirsOnce z'.
Proof.
  intros H. unfold writeFile, writeSymlink.
  destruct (fs file) as [[| dest | r |]|].
  - destruct (directories z); [|now intros [= <- <-]].
    destruct (writeDirectory z rel) as [z1|] eqn:W; [|discriminate].
    intros [= <- <-]. eapply dirsOnce_writeDirectory; eassumption.
  - destruct (parentDirs z rel) as [z1|] eqn:P; [|discriminate].
    pose proof (dirsOnce_parentDirs _ _ _ H P) as H1.
    destruct (Readlink fs file); intros [= <- <-]; [|assumption].
    apply dirsOnce_enqueue; [assumption|]. now intros ze [= <-].
  - destruct (parentDirs z rel) as [z1|] eqn:P; [|discriminate].
    pose proof (dirsOnce_parentDirs _ _ _ H P) as H1.
    destruct (openFails r).
    + intros [= <- <-]. apply dirsOnce_enqueue; [assumption|]. discriminate.
    + destruct (fileSize r >=? minParallelFileSize)%Z.
      * destruct (blockTasks r); [|discriminate]. intros [= <- <-].
        apply dirsOnce_postErrors, dirsOnce_enqueue; [assumption|].
        intros ze Hze. cbn [promised] in Hze.
        apply crcFile_mode in Hze. now rewrite Hze.
      * intros [= <- <-].
        apply dirsOnce_postErrors, dirsOnce_enqueue; [assumption|].
        intros ze Hze. cbn [promised] in Hze.
        apply compressWholeFile_mode in Hze. now rewrite Hze.
  - now intros [= <- <-].
  - now intros [= <- <-].
Qed.

Lemma dirsOnce_planFiles flate fs files :
  ∀ z z' e,
    dirsOnce z → planFiles flate fs z files = Some (z', e) → dirsOnce z'.
Proof.
  induction files as [|f files IH]; intros z z' e H.
  - now intros [= <- <-].
  - cbn [planFiles]. unfold writeRelFile.
    destruct (filepath.Rel _ _) as [rel|].
    + destruct (writeFile flate fs z rel _) as [[z1 [e1|]]|] eqn:W;
        [| |discriminate].
      * intros [= <- <-]. eapply dirsOnce_writeFile; eassumption.
      * apply IH. eapply dirsOnce_writeFile; eassumption.
    + now intros [= <- <-].
Qed.

(** Over a whole plan, starting with nothing recorded, no directory entry
    is submitted twice, however many files lie under the directory. *)
Lemma plan_dirs_once flate fs dirs level files manifest z' :
  plan flate fs (newZipWriter dirs level) files manifest = Some z' →
  NoDup (dirNames (writeOps z')).
Proof.
  assert (H0 : dirsOnce (newZipWriter dirs level)).
  { split; [constructor|]. intros d Hd. cbn in Hd. now apply elem_of_nil in Hd. }
  unfold plan.
  destruct (planFiles flate fs _ files) as [[z1 [e|]]|] eqn:P; [| |discriminate].
  - intros [= <-]. apply (dirsOnce_planFiles _ _ _ _ _ _ H0 P).
  - pose proof (dirsOnce_planFiles _ _ _ _ _ _ H0 P) as H1.
    destruct (negb (String.eqb manifest "")); [|intros [= <-]; apply H1].
    destruct (writeFile flate fs z1 _ manifest) as [[z2 [e|]]|] eqn:W;
      [| |discriminate]; intros [= <-];
      apply (dirsOnce_writeFile _ _ _ _ _ _ _ H1 W).
Qed.

(** * Further properties of the tool *)

(** ** The writer loop: how a run ends *)








(** ** The writer loop: the number of turns *)

Lemma turn_decreases s s' : turn s s' → turnsLeft s' < turnsLeft s.
Proof.
  intros [Hd Hr]. unfold recv, select in Hr. unfold turnsLeft. rewrite Hd.
  destruct (currentReader s) as [[data|]|] eqn:R.
  - injection Hr as <-. cbn [done queue currentWriteOpChan currentReaders
                              currentReader]. rewrite ?Hd. lia.
  - discriminate.
  - destruct (currentReaders s) as [[|c cs]|] eqn:Rs.
    + injection Hr as <-. cbn [done queue currentWriteOpChan currentReaders
                                currentReader]. rewrite ?Hd. cbn [length]. lia.
    + injection Hr as <-. cbn [done queue currentWriteOpChan currentReaders
                                currentReader]. rewrite ?Hd. cbn [length]. lia.
    + destruct (currentWriteOpChan s) as [p|] eqn:W.
      * unfold promiseTurns.
        destruct (promised p) as [op|]; [|discriminate].
        destruct (openSink op) as [w c].
        destruct (futureReaders op) as [rs|]; injection Hr as <-;
          cbn [done queue currentWriteOpChan currentReaders currentReader];
          rewrite ?Hd, ?R; lia.
      * destruct (queue s) as [|p rest] eqn:Q; injection Hr as <-;
          cbn [done queue currentWriteOpChan currentReaders currentReader].
        -- lia.
        -- rewrite ?Hd, ?Rs, ?R.
           change (list_sum (List.map promiseTurns (p :: rest)))
             with (promiseTurns p + list_sum (List.map promiseTurns rest)).
           assert (2 ≤ promiseTurns p).
           { unfold promiseTurns. destruct (promised p) as [op|]; [|lia].
             destruct (futureReaders op); lia. }
           lia.
Qed.

(** X2: whatever arrives and whenever, the loop makes at most
    [writerFuel] turns: a state reached in [n] turns has at most
    [writerFuel - n] turns left. *)
Theorem writer_turns_bounded ops n s :
  nsteps turn n (initWriter ops) s →
  n + turnsLeft s ≤ writerFuel ops.
Proof.
  revert s. induction n as [|n IH]; intros s H.
  - inversion H; subst. unfold turnsLeft, writerFuel, initWriter.
    cbn [done queue currentWriteOpChan currentReaders currentReader]. lia.
  - apply nsteps_inv_r in H as (y & Hy & Hyz).
    apply IH in Hy. apply turn_decreases in Hyz. lia.
Qed.

Lemma writer_turns_bounded_witness :
  3 + turnsLeft demoState ≤ writerFuel demoOps.
Proof.
  apply (writer_turns_bounded demoOps 3 demoState).
  eapply nsteps_l; [split; reflexivity|].
  eapply nsteps_l; [split; reflexivity|].
  eapply nsteps_l; [split; reflexivity|].
  apply nsteps_O.
Defined.

(** ** Invariants of the plan *)

Section PlanInvariant.

Variable flate : flateLib.
Variable fs : filesystem.
Variable TrimSpace : string → string.
Variable ReadFile : string → string + error.

(** [Inv] holds along the plan, [Fin] of what the plan ends with. *)
Variables Inv Fin : zipWriter → Prop.

Hypothesis Inv_writeFile : ∀ z rel file z',
  Inv z → writeFile flate fs z rel file = Some (z', None) → Inv z'.
Hypothesis Fin_writeFile : ∀ z rel file z' e,
  Inv z → writeFile flate fs z rel file = Some (z', Some e) →
  Fin (postErrors z' [e] false).
Hypothesis Fin_post : ∀ z e, Inv z → Fin (postErrors z [e] false).
Hypothesis Fin_Inv : ∀ z, Inv z → Fin z.

Lemma inv_writeRelFile z root file z' :
  Inv z → writeRelFile flate fs z root file = Some (z', None) → Inv z'.
Proof.
  intros H. unfold writeRelFile. destruct (filepath.Rel _ _); [|discriminate].
  now apply Inv_writeFile.
Qed.

Lemma fin_writeRelFile z root file z' e :
  Inv z → writeRelFile flate fs z root file = Some (z', Some e) →
  Fin (postErrors z' [e] false).
Proof.
  intros H. unfold writeRelFile. destruct (filepath.Rel _ _).
  - now apply Fin_writeFile.
  - intros [= <- <-]. now apply Fin_post.
Qed.

Lemma inv_planFiles files :
  ∀ z z' e,
    Inv z → planFiles flate fs z files = Some (z', e) →
    match e with
    | None => Inv z'
    | Some e => Fin (postErrors z' [e] false)
    end.
Proof.
  induction files as [|f files IH]; intros z z' e H.
  - now intros [= <- <-].
  - cbn [planFiles].
    destruct (writeRelFile flate fs z _ _) as [[z1 [e1|]]|] eqn:W;
      [| |discriminate].
    + intros [= <- <-]. eapply fin_writeRelFile; eassumption.
    + apply IH. eapply inv_writeRelFile; eassumption.
Qed.

Lemma fin_plan z files manifest z' :
  Inv z → plan flate fs z files manifest = Some z' → Fin z'.
Proof.
  intros H. unfold plan.
  destruct (planFiles flate fs z files) as [[z1 [e|]]|] eqn:P; [| |discriminate].
  - intros [= <-]. apply (inv_planFiles _ _ _ _ H P).
  - pose proof (inv_planFiles _ _ _ _ H P) as H1. cbn in H1.
    destruct (negb (String.eqb manifest "")).
    + destruct (writeFile flate fs z1 _ manifest) as [[z2 [e|]]|] eqn:W;
        [| |discriminate]; intros [= <-].
      * eapply Fin_writeFile; eassumption.
      * eapply Fin_Inv, Inv_writeFile; eassumption.
    + intros [= <-]. now apply Fin_Inv.
Qed.

Lemma inv_writeListLines root lines :
  ∀ z z' e,
    Inv z → writeListLines flate fs TrimSpace z root lines = Some (z', e) →
    match e with
    | None => Inv z'
    | Some e => Fin (postErrors z' [e] false)
    end.
Proof.
  induction lines as [|l lines IH]; intros z z' e H.
  - now intros [= <- <-].
  - cbn [writeListLines]. destruct (String.eqb (TrimSpace l) "").
    + now apply IH.
    + destruct (writeRelFile flate fs z root _) as [[z1 [e1|]]|] eqn:W;
        [| |discriminate].
      * intros [= <- <-]. eapply fin_writeRelFile; eassumption.
      * apply IH. eapply inv_writeRelFile; eassumption.
Qed.

Lemma inv_planLists lists :
  ∀ z z' e,
    Inv z → planLists flate fs TrimSpace ReadFile z lists = Some (z', e) →
    match e with
    | None => Inv z'
    | Some e => Fin (postErrors z' [e] false)
    end.
Proof.
  induction lists as [|l lists IH]; intros z z' e H.
  - now intros [= <- <-].
  - cbn [planLists]. unfold writeListFile.
    destruct (ReadFile (argFile l)) as [text|e0].
    + destruct (writeListLines flate fs TrimSpace z _ _) as [[z1 [e1|]]|] eqn:W;
        [| |discriminate].
      * intros [= <- <-]. apply (inv_writeListLines _ _ _ _ _ H W).
      * apply IH. apply (inv_writeListLines _ _ _ _ _ H W).
    + intros [= <- <-]. now apply Fin_post.
Qed.

Lemma fin_planAll z lists files manifest z' :
  Inv z →
  planAll flate fs TrimSpace ReadFile z lists files manifest = Some z' →
  Fin z'.
Proof.
  intros H. unfold planAll.
  destruct (planLists flate fs TrimSpace ReadFile z lists) as [[z1 [e|]]|] eqn:P;
    [| |discriminate].
  - intros [= <-]. apply (inv_planLists _ _ _ _ H P).
  - apply fin_plan. apply (inv_planLists _ _ _ _ H P).
Qed.

End PlanInvariant.

(** *** The plan always returns *)

Section PlanTotal.

Variable flate : flateLib.
Variable fs : filesystem.
Variable TrimSpace : string → string.
Variable ReadFile : string → string + error.
Hypothesis bounded : sizesBounded fs.







End PlanTotal.

(** ** A build never waits for ever *)















Example list_file_run :
  option_map
    (fun res => match res with
                | Archive log => Some (archiveNames log)
                | _ => None
                end)
    (writeAll stored.lib fsDemo asciiTrimSpace readDemo (newZipWriter true 5)
       [fileArgHere "list.txt"] [] "")
  = Some (Some ["e.txt"; "link"; "a/b/"; "a/b/c.txt"]).
Proof. vm_compute. reflexivity. Qed.

(** ** The time of the entries *)

Lemma timesFixed_enqueue t z p :
  timesFixed t z →
  (∀ ze, promised p = Some ze → zip.ModTime (fh ze) = t) →
  timesFixed t (enqueue z p).
Proof.
  intros [Ht Hf] Hp. split; [exact Ht|].
  cbn [enqueue writeOps]. apply Forall_app. split; [exact Hf|].
  constructor; [exact Hp | constructor].
Qed.

Lemma timesFixed_postErrors t z es c :
  timesFixed t z → timesFixed t (postErrors z es c).
Proof. intros H. exact H. Qed.

Lemma timesFixed_writeDirectory t z dir z' :
  timesFixed t z → writeDirectory z dir = Some z' → timesFixed t z'.
Proof.
  intros H. rewrite writeDirectory_spec. intros [= <-].
  destruct (dirWanted z (dirName dir)); [|assumption].
  unfold addDir. apply timesFixed_enqueue.
  - exact H.
  - intros ze [= <-]. apply H.
Qed.

Lemma timesFixed_parentDirs t z rel z' :
  timesFixed t z → parentDirs z rel = Some z' → timesFixed t z'.
Proof.
  intros H. unfold parentDirs. destruct (directories z).
  - now apply timesFixed_writeDirectory.
  - now intros [= <-].
Qed.

Lemma crcFile_time r ze ze' :
  delivered (crcFile r ze) = Some ze' →
  zip.ModTime (fh ze') = zip.ModTime (fh ze).
Proof.
  unfold crcFile. destruct (Copy _); [|discriminate]. now intros [= <-].
Qed.

Lemma compressWholeFile_time flate z rel r ze :
  delivered (compressWholeFile flate z rel r) = Some ze →
  zip.ModTime (fh ze) = time z.
Proof.
  unfold compressWholeFile.
  destruct (Copy _); [|discriminate].
  destruct (fault r OpSeekCompress); [discriminate|].
  destruct (compressBlock _ _ _ _ _); [|discriminate].
  destruct (_ <? _)%Z; [now intros [= <-]|].
  destruct (fault r OpSeekRaw); [discriminate|].
  destruct (ReadAll _) as [buf [e|]]; [discriminate|].
  now intros [= <-].
Qed.

Lemma timesFixed_writeFile flate fs t z rel file z' e :
  timesFixed t z → writeFile flate fs z rel file = Some (z', e) →
  timesFixed t z'.
Proof.
  intros H. unfold writeFile, writeSymlink.
  destruct (fs file) as [[| dest | r |]|].
  - destruct (directories z); [|now intros [= <- <-]].
    destruct (writeDirectory z rel) as [z1|] eqn:W; [|discriminate].
    intros [= <- <-]. eapply timesFixed_writeDirectory; eassumption.
  - destruct (parentDirs z rel) as [z1|] eqn:P; [|discriminate].
    pose proof (timesFixed_parentDirs _ _ _ _ H P) as H1.
    destruct (Readlink fs file); intros [= <- <-]; [|assumption].
    apply timesFixed_enqueue; [assumption|]. intros ze [= <-]. apply H1.
  - destruct (parentDirs z rel) as [z1|] eqn:P; [|discriminate].
    pose proof (timesFixed_parentDirs _ _ _ _ H P) as H1.
    destruct (openFails r).
    + intros [= <- <-]. apply timesFixed_enqueue; [assumption|]. discriminate.
    + destruct (fileSize r >=? minParallelFileSize)%Z.
      * destruct (blockTasks r); [|discriminate]. intros [= <- <-].
        apply timesFixed_postErrors, timesFixed_enqueue; [assumption|].
        intros ze Hze. cbn [promised] in Hze.
        apply crcFile_time in Hze. rewrite Hze. apply H1.
      * intros [= <- <-].
        apply timesFixed_postErrors, timesFixed_enqueue; [assumption|].
        intros ze Hze. cbn [promised] in Hze.
        apply compressWholeFile_time in Hze. rewrite Hze. apply H1.
  - now intros [= <- <-].
  - now intros [= <- <-].
Qed.

(** X4: every entry of a build, whatever its kind (directory, link, small
    or large file, manifest), carries the one time held by the writer
    object; no time of the file system reaches the archive. *)
Theorem entries_carry_fixed_time flate fs TrimSpace ReadFile z
    lists files manifest z' :
  writeOps z = [] →
  planAll flate fs TrimSpace ReadFile z lists files manifest = Some z' →
  time z' = time z
  ∧ Forall (fun p => ∀ ze, promised p = Some ze →
                           zip.ModTime (fh ze) = time z) (writeOps z').
Proof.
  intros H0.
  apply (fin_planAll flate fs TrimSpace ReadFile
           (timesFixed (time z)) (timesFixed (time z))).
  - intros z1 rel file z2. apply timesFixed_writeFile.
  - intros z1 rel file z2 e H W.
    apply timesFixed_postErrors. eapply timesFixed_writeFile; eassumption.
  - intros z1 e. apply timesFixed_postErrors.
  - trivial.
  - split; [reflexivity|]. rewrite H0. constructor.
Qed.

Lemma entries_carry_fixed_time_witness :
  ∃ z',
    planAll stored.lib fsDemo asciiTrimSpace readDemo (newZipWriter true 5)
      [fileArgHere "list.txt"] [fileArgHere "b/c.txt"] "" = Some z'
    ∧ time z' = time (newZipWriter true 5)
    ∧ Forall (fun p => ∀ ze, promised p = Some ze →
                             zip.ModTime (fh ze) = time (newZipWriter true 5))
        (writeOps z').
Proof.
  eexists. split; [vm_compute; reflexivity|].
  apply (entries_carry_fixed_time stored.lib fsDemo asciiTrimSpace readDemo
           (newZipWriter true 5) [fileArgHere "list.txt"]
           [fileArgHere "b/c.txt"] "").
  - reflexivity.
  - vm_compute. reflexivity.
Defined.

(** ** Directory entries over a whole build *)

Lemma noDirs_enqueue z p : noDirs z → notDir p → noDirs (enqueue z p).
Proof.
  intros [Hd Hn] Hp. split; [exact Hd|].
  cbn [enqueue writeOps]. now rewrite dirNames_snoc_other.
Qed.

Lemma noDirs_writeFile flate fs z rel file z' e :
  noDirs z → writeFile flate fs z rel file = Some (z', e) → noDirs z'.
Proof.
  intros H. pose proof H as [Hd _]. unfold writeFile, writeSymlink.
  rewrite (parentDirs_disabled z rel Hd), Hd.
  destruct (fs file) as [[| dest | r |]|].
  - now intros [= <- <-].
  - destruct (Readlink fs file); intros [= <- <-]; [|assumption].
    apply noDirs_enqueue; [assumption|]. now intros ze [= <-].
  - destruct (openFails r).
    + intros [= <- <-]. apply noDirs_enqueue; [assumption|]. discriminate.
    + destruct (fileSize r >=? minParallelFileSize)%Z.
      * destruct (blockTasks r); [|discriminate]. intros [= <- <-].
        apply (noDirs_enqueue z); [assumption|].
        intros ze Hze. cbn [promised] in Hze.
        apply crcFile_mode in Hze. now rewrite Hze.
      * intros [= <- <-]. apply (noDirs_enqueue z); [assumption|].
        intros ze Hze. cbn [promised] in Hze.
        apply compressWholeFile_mode in Hze. now rewrite Hze.
  - now intros [= <- <-].
  - now intros [= <- <-].
Qed.

(** X5: over a whole build, list files and manifest included, no
    directory entry is submitted twice, however many files lie under the
    directory; and when directories are off none is submitted at all. *)
Theorem directory_entries_once flate fs TrimSpace ReadFile z
    lists files manifest z' :
  writeOps z = [] →
  planAll flate fs TrimSpace ReadFile z lists files manifest = Some z' →
  NoDup (dirNames (writeOps z'))
  ∧ (directories z = false → dirNames (writeOps z') = []).
Proof.
  intros H0 P. split.
  - revert P.
    apply (fin_planAll flate fs TrimSpace ReadFile dirsOnce
             (fun z => NoDup (dirNames (writeOps z)))).
    + intros z1 rel file z2. apply dirsOnce_writeFile.
    + intros z1 rel file z2 e H W.
      apply (dirsOnce_writeFile _ _ _ _ _ _ _ H W).
    + intros z1 e H. apply H.
    + intros z1 H. apply H.
    + split; rewrite H0; [constructor|].
      intros d Hd. now apply elem_of_nil in Hd.
  - intros Hd. revert P.
    apply (fin_planAll flate fs TrimSpace ReadFile noDirs
             (fun z => dirNames (writeOps z) = [])).
    + intros z1 rel file z2. apply noDirs_writeFile.
    + intros z1 rel file z2 e H W.
      apply (noDirs_writeFile _ _ _ _ _ _ _ H W).
    + intros z1 e H. apply H.
    + intros z1 H. apply H.
    + split; [exact Hd|]. now rewrite H0.
Qed.

Lemma directory_entries_once_witness :
  ∃ z',
    planAll stored.lib fsDemo asciiTrimSpace readDemo (newZipWriter true 5)
      [fileArgHere "list.txt"] [fileArgHere "b/c.txt"] "" = Some z'
    ∧ NoDup (dirNames (writeOps z'))
    ∧ (directories (newZipWriter true 5) = false →
       dirNames (writeOps z') = []).
Proof.
  eexists. split; [vm_compute; reflexivity|].
  apply (directory_entries_once stored.lib fsDemo asciiTrimSpace readDemo
           (newZipWriter true 5) [fileArgHere "list.txt"]
           [fileArgHere "b/c.txt"] "").
  - reflexivity.
  - vm_compute. reflexivity.
Defined.

(** ** Large files: the entry and its blocks *)

Lemma writeFile_large_dirs flate fs z rel file r :
  fs file = Some (Regular r) →
  openFails r = false →
  (minParallelFileSize ≤ fileSize r < 2 ^ 62)%Z →
  ∃ z1,
    parentDirs z rel = Some z1
    ∧ time z1 = time z ∧ compLevel z1 = compLevel z
    ∧ writeFile flate fs z rel file
      = Some
          (let results :=
             List.map (runBlock flate z1) (blocksFrom r (blockCount r) 0) in
           let crc :=
             crcFile r
               {| fh := {| zip.Name := rel;
                           zip.Method := zip.Deflate;
                           zip.CRC32 := 0;
                           zip.UncompressedSize64 := fileSize r;
                           zip.Mode := 0;
                           zip.ModTime := time z1 |};
                  futureReaders := Some (List.map delivered results) |} in
           postErrors (enqueue z1 (Pending (delivered crc)))
             (posted crc ++ List.concat (List.map posted results)) false,
           None).
Proof.
  intros Hfs Ho [Hmin Hmax]. unfold writeFile. rewrite Hfs.
  destruct (parentDirs_spec z rel) as (z1 & -> & Ht & Hl & _).
  exists z1. repeat split; try assumption. rewrite Ho.
  pose proof minParallelFileSize_val as Vm.
  destruct (fileSize r >=? minParallelFileSize)%Z eqn:E; [|lia].
  rewrite blockTasks_spec by lia. reflexivity.
Qed.

Lemma blocksFrom_length r n : ∀ start, length (blocksFrom r n start) = n.
Proof. induction n as [|n IH]; intros start; [reflexivity|]. cbn. now rewrite IH. Qed.

(** X6: a large file whose reads succeed is always sent with method
    Deflate, whatever the compressor makes of it: there is no store
    fallback in the large-file path. Its header carries the CRC-32 of the
    whole file and its size, and it has one payload per block of the file,
    all delivered. *)
Theorem large_file_entry flate fs z rel file r :
  fs file = Some (Regular r) →
  openFails r = false →
  noFaults r →
  levelOk flate (compLevel z) = true →
  (minParallelFileSize ≤ fileSize r < 2 ^ 62)%Z →
  ∃ z1 payloads,
    parentDirs z rel = Some z1
    ∧ writeFile flate fs z rel file
      = Some
          (postErrors
             (enqueue z1
                (Pending
                   (Some {| fh := {| zip.Name := rel;
                                     zip.Method := zip.Deflate;
                                     zip.CRC32 := crc32.Sum32 (content r);
                                     zip.UncompressedSize64 := fileSize r;
                                     zip.Mode := 0;
                                     zip.ModTime := time z |};
                            futureReaders := Some (List.map Some payloads) |})))
             [] false,
           None)
    ∧ Z.of_nat (length payloads)
      = ((fileSize r + parallelBlockSize - 1) / parallelBlockSize)%Z.
Proof.
  intros Hfs Ho F L Hsz.
  destruct (writeFile_large_dirs flate fs z rel file r Hfs Ho Hsz)
    as (z1 & Hp & Ht & Hl & Hw).
  exists z1, (List.map (blockPayload flate z1) (blocksFrom r (blockCount r) 0)).
  split; [exact Hp|]. split.
  - rewrite Hw. cbv zeta.
    rewrite (results_onlyDictFaults flate z1 r (blockCount r))
      by (try (split; intros; apply F); now rewrite Hl).
    rewrite posted_Done, delivered_Done.
    unfold crcFile, Copy, wholeReader. cbn [rd_fault rd_data rd_op].
    rewrite F, Ht. reflexivity.
  - rewrite length_map, blocksFrom_length. unfold blockCount.
    pose proof parallelBlockSize_val as Vb.
    pose proof minParallelFileSize_val as Vm. rewrite Vb in *.
    apply Z2Nat.id. apply Z.div_pos; lia.
Qed.

Lemma large_file_entry_witness :
  ∃ z1 payloads,
    parentDirs (newZipWriter false 5) "big.bin" = Some z1
    ∧ writeFile stored.lib (fsBig bigFile) (newZipWriter false 5)
        "big.bin" "big.bin"
      = Some
          (postErrors
             (enqueue z1
                (Pending
                   (Some {| fh := {| zip.Name := "big.bin";
                                     zip.Method := zip.Deflate;
                                     zip.CRC32 := crc32.Sum32 (content bigFile);
                                     zip.UncompressedSize64 := fileSize bigFile;
                                     zip.Mode := 0;
                                     zip.ModTime := time (newZipWriter false 5) |};
                            futureReaders := Some (List.map Some payloads) |})))
             [] false,
           None)
    ∧ Z.of_nat (length payloads)
      = ((fileSize bigFile + parallelBlockSize - 1) / parallelBlockSize)%Z.
Proof.
  apply (large_file_entry stored.lib (fsBig bigFile) (newZipWriter false 5)
           "big.bin" "big.bin" bigFile).
  - reflexivity.
  - reflexivity.
  - intros op. reflexivity.
  - reflexivity.
  - rewrite bigFile_size, minParallelFileSize_val. lia.
Defined.

Lemma blockAt_data_length r start :
  (0 ≤ start)%Z →
  length (blockData (blockAt r start))
  = Nat.min (Z.to_nat parallelBlockSize) (length (content r) - Z.to_nat start).
Proof.
  intros H. unfold blockData, blockAt, NewSectionReader. cbn [bt_reader rd_data].
  now rewrite length_firstn, length_skipn.
Qed.

(** X7: the blocks of a large file are consecutive parts of it that cover
    it exactly: their bytes, put end to end, are the file; none is empty;
    each but the last has exactly [parallelBlockSize] bytes and the last
    at most that. *)
Theorem blocks_cover_file r :
  (minParallelFileSize ≤ fileSize r < 2 ^ 62)%Z →
  ∃ tasks,
    blockTasks r = Some tasks
    ∧ List.concat (List.map blockData tasks) = content r
    ∧ ∀ k t, tasks !! k = Some t →
        (0 < Z.of_nat (length (blockData t)) ≤ parallelBlockSize)%Z
        ∧ (S k < length tasks →
           Z.of_nat (length (blockData t)) = parallelBlockSize).
Proof.
  intros [Hmin Hmax].
  pose proof minParallelFileSize_val as Vm.
  pose proof parallelBlockSize_val as Vb.
  assert (H0 : (0 < fileSize r)%Z) by lia.
  destruct (blockCount_bounds r H0) as (Ha & Hb & Hc & Hd).
  exists (blocksFrom r (blockCount r) 0).
  split; [apply blockTasks_spec; lia|].
  split; [apply blockTasks_data; lia|].
  intros k t Hk. apply blocksFrom_lookup in Hk as [Hk ->].
  rewrite Z.add_0_l, blocksFrom_length.
  rewrite blockAt_data_length by (rewrite Vb; lia).
  unfold fileSize in *. rewrite Vb in *. split; [lia|]. intros Hn. lia.
Qed.

Lemma blocks_cover_file_witness :
  ∃ tasks,
    blockTasks bigFile = Some tasks
    ∧ List.concat (List.map blockData tasks) = content bigFile
    ∧ ∀ k t, tasks !! k = Some t →
        (0 < Z.of_nat (length (blockData t)) ≤ parallelBlockSize)%Z
        ∧ (S k < length tasks →
           Z.of_nat (length (blockData t)) = parallelBlockSize).
Proof.
  apply (blocks_cover_file bigFile).
  rewrite bigFile_size, minParallelFileSize_val. lia.
Defined.

(** ** Large files: what failing reads do *)







(** The failing reads of the sample file: its second and fourth blocks. *)
Example block_fault_errors :
  List.filter (readFails bigFileBlockFault) (largeReads bigFileBlockFault)
  = [OpBlock 1048576; OpBlock 3145728].
Proof.
  unfold largeReads, blockStarts, blockCount, fileSize, bigFileBlockFault.
  cbn [content]. rewrite repeat_length, Z2Nat.id by lia.
  vm_compute. reflexivity.
Qed.

(** ** A level the compressor refuses *)




(** ** [writeDirectory]: one entry, once *)

Lemma length_snoc_slash (s : string) :
  String.length (s +:+ "/") = S (String.length s).
Proof. induction s as [|c s IH]; [reflexivity|]. simpl. f_equal. exact IH. Qed.

Lemma substring_snoc_slash (s : string) :
  substring (String.length s) 1 (s +:+ "/") = "/"%string.
Proof. induction s as [|c s IH]; [reflexivity|]. exact IH. Qed.

Lemma HasSuffix_snoc_slash (s : string) :
  strings.HasSuffix (s +:+ "/") "/" = true.
Proof.
  unfold strings.HasSuffix. cbv zeta. rewrite length_snoc_slash.
  change (String.length "/") with 1.
  replace (S (String.length s) - 1) with (String.length s) by lia.
  now rewrite substring_snoc_slash.
Qed.

(** X10: [writeDirectory] returns, and submits at most one entry. The
    entry it submits is named by its argument with one slash at the end,
    never [./], and was not recorded before; a second call on the result,
    for the same directory with or without the slash, changes nothing. *)
Theorem writeDirectory_once z dir dir' :
  dirName dir' = dirName dir →
  ∃ z',
    writeDirectory z dir = Some z'
    ∧ writeDirectory z' dir' = Some z'
    ∧ (z' = z
       ∨ ∃ name,
           writeOps z' = writeOps z ++ [Ready (dirEntry z name)]
           ∧ strings.HasSuffix name "/" = true
           ∧ name ≠ "./"%string
           ∧ (name = dir ∨ name = dir +:+ "/")
           ∧ dirCreated z name = false).
Proof.
  intros E. rewrite writeDirectory_spec.
  destruct (dirWanted z (dirName dir)) eqn:W.
  - eexists. split; [reflexivity|]. rewrite writeDirectory_spec, E. split.
    + replace (dirWanted (addDir z (dirName dir)) (dirName dir)) with false;
        [reflexivity|].
      unfold dirWanted, dirCreated, addDir, enqueue, markDir.
      cbn [createdDirs]. rewrite lookup_insert_eq. cbn.
      now rewrite andb_false_r.
    + right. exists (dirName dir). unfold dirWanted in W.
      apply andb_prop in W as [W Hc]. apply andb_prop in W as [H1 H2].
      split; [reflexivity|]. split; [|split; [|split]].
      * destruct (dirName_cases dir) as [D|[s D]]; rewrite D in *.
        -- discriminate.
        -- apply HasSuffix_snoc_slash.
      * intros D. rewrite D in H2. discriminate.
      * unfold dirName.
        destruct (negb (dir =? "")%string && negb (strings.HasSuffix dir "/"));
          [right | left]; reflexivity.
      * now destruct (dirCreated z (dirName dir)).
  - exists z. rewrite writeDirectory_spec, E, W. repeat split. now left.
Qed.

Lemma writeDirectory_once_witness :
  ∃ z',
    writeDirectory (newZipWriter true 5) "a/b" = Some z'
    ∧ writeDirectory z' "a/b/" = Some z'
    ∧ (z' = newZipWriter true 5
       ∨ ∃ name,
           writeOps z'
           = writeOps (newZipWriter true 5)
             ++ [Ready (dirEntry (newZipWriter true 5) name)]
           ∧ strings.HasSuffix name "/" = true
           ∧ name ≠ "./"%string
           ∧ (name = "a/b"%string ∨ name = "a/b" +:+ "/")
           ∧ dirCreated (newZipWriter true 5) name = false).
Proof.
  apply (writeDirectory_once (newZipWriter true 5) "a/b" "a/b/").
  reflexivity.
Defined.

(** ** The errors [writeFile] returns *)

(** X11: [writeFile] returns an error in four cases only: [os.Lstat]
    fails, the path is neither file, directory nor link, [os.Readlink]
    fails, [os.Open] fails. No failure of a read is ever returned: those
    are left to the tasks. When it returns an error it has posted nothing;
    when [os.Lstat] fails or the kind is refused it has submitted nothing;
    when [os.Open] fails, the promise it has already submitted is never
    filled. *)
Theorem writeFile_returned_error flate fs z rel file :
  sizesBounded fs →
  ∃ z' e,
    writeFile flate fs z rel file = Some (z', e)
    ∧ e = match fs file with
          | None => Some (ErrLstat file)
          | Some Other => Some (ErrNotFile file)
          | Some (Symlink None) => Some (ErrReadlink file)
          | Some (Regular r) =>
              if openFails r then Some (ErrOpen file) else None
          | Some Dir | Some (Symlink (Some _)) => None
          end
    ∧ (e ≠ None → errors z' = errors z ∧ crashed z' = crashed z)
    ∧ (fs file = None ∨ fs file = Some Other → z' = z)
    ∧ (∀ r, fs file = Some (Regular r) → openFails r = true →
         ∃ ops, writeOps z' = ops ++ [Pending None]).
Proof.
  intros B. unfold writeFile, writeSymlink, Readlink.
  destruct (parentDirs_spec z rel) as (z1 & -> & _ & _ & _ & He & Hc & _).
  pose proof minParallelFileSize_val as Vm.
  destruct (fs file) as [[| dest | r |]|] eqn:Hfs;
    [ destruct (directories z); [rewrite writeDirectory_spec|]
    | destruct dest as [dest|]
    | destruct (openFails r) eqn:Ho;
      [| destruct (fileSize r >=? minParallelFileSize)%Z eqn:E;
         [rewrite blockTasks_spec by (specialize (B file r Hfs); lia)|] ]
    | | ];
    eexists _, _; (split; [reflexivity|]);
    repeat split; try congruence; try (intros [|]; congruence);
    try (intros; congruence).
  all: try exact He; try exact Hc; now eexists.
Qed.

Lemma writeFile_returned_error_witness :
  ∃ z' e,
    writeFile stored.lib fsDemo (newZipWriter true 5) "x/nope" "nope"
    = Some (z', e)
    ∧ e = match fsDemo "nope" with
          | None => Some (ErrLstat "nope")
          | Some Other => Some (ErrNotFile "nope")
          | Some (Symlink None) => Some (ErrReadlink "nope")
          | Some (Regular r) =>
              if openFails r then Some (ErrOpen "nope") else None
          | Some Dir | Some (Symlink (Some _)) => None
          end
    ∧ (e ≠ None →
       errors z' = errors (newZipWriter true 5)
       ∧ crashed z' = crashed (newZipWriter true 5))
    ∧ (fsDemo "nope" = None ∨ fsDemo "nope" = Some Other →
       z' = newZipWriter true 5)
    ∧ (∀ r, fsDemo "nope" = Some (Regular r) → openFails r = true →
         ∃ ops, writeOps z' = ops ++ [Pending None]).
Proof.
  apply (writeFile_returned_error stored.lib fsDemo (newZipWriter true 5)
           "x/nope" "nope").
  intros path r. unfold fsDemo.
  repeat (destruct (String.eqb path _);
          [intros [= <-]; vm_compute; reflexivity|]);
    discriminate.
Defined.

(** ** List files *)

Lemma writeListLines_planFiles flate fs TrimSpace root :
  ∀ lines z,
    writeListLines flate fs TrimSpace z root lines
    = planFiles flate fs z
        (List.map (fun f => {| relativeRoot := root; argFile := f |})
           (List.filter (fun f => negb (String.eqb f ""))
              (List.map TrimSpace lines))).
Proof.
  induction lines as [|l lines IH]; intros z; [reflexivity|].
  cbn [writeListLines List.map List.filter].
  destruct (String.eqb (TrimSpace l) ""); cbn [negb]; [apply IH|].
  cbn [List.map planFiles relativeRoot argFile].
  destruct (writeRelFile flate fs z root (TrimSpace l)) as [[z1 [e|]]|];
    [reflexivity | apply IH | reflexivity].
Qed.

(** X12: a list file given with [-l] does what [-f] would do for each of
    its lines, trimmed, under the root of the list file, in line order;
    the lines that are blank after trimming are skipped. When the list
    file cannot be read, the error is returned and nothing is
    submitted. *)
Theorem writeListFile_as_files flate fs TrimSpace ReadFile z l :
  writeListFile flate fs TrimSpace ReadFile z l
  = match ReadFile (argFile l) with
    | inr e => Some (z, Some e)
    | inl text =>
        planFiles flate fs z (listedFiles TrimSpace (relativeRoot l) text)
    end.
Proof.
  unfold writeListFile, listedFiles.
  destruct (ReadFile (argFile l)); [|reflexivity].
  apply writeListLines_planFiles.
Qed.

(** The lines of the sample list: a blank line is dropped, the spaces
    around [link] are trimmed. *)
Example list_file_lines :
  List.map argFile
    (listedFiles asciiTrimSpace "."
       ("e.txt" +:+ String newline ("  link " +:+ String newline
          (String newline "a/b/c.txt"))))
  = ["e.txt"; "link"; "a/b/c.txt"]%string.
Proof. vm_compute. reflexivity. Qed.

(** ** The flags *)

Lemma Clean_nonempty (path : string) : filepath.Clean path ≠ ""%string.
Proof.
  unfold filepath.Clean.
  destruct (String.eqb path ""); [discriminate|].
  destruct (clean_elems_shape path) as [_ Ho]. cbv zeta.
  destruct (filepath.rooted path); [discriminate|].
  destruct (filepath.clean_elems path) as [|x l]; [discriminate|].
  inversion Ho as [|? ? [Hx _] _]; subst.
  destruct x as [|c x]; [congruence|].
  unfold strings.JoinSlash. cbn [String.concat].
  destruct l; discriminate.
Qed.

Lemma parseFlags_app (a b : list flagOcc) :
  ∀ st,
    parseFlags st (a ++ b)
    = match parseFlags st a with
      | Some st1 => parseFlags st1 b
      | None => None
      end.
Proof.
  induction a as [|o a IH]; intros st; [reflexivity|].
  cbn [app parseFlags]. destruct (setFlag st o); [apply IH | reflexivity].
Qed.

Lemma parseFlags_root (occs : list flagOcc) :
  ∀ st st',
    parseFlags st occs = Some st' →
    flagRelativeRoot st' = rootAfter (flagRelativeRoot st) occs.
Proof.
  unfold rootAfter.
  induction occs as [|o occs IH]; intros st st'; cbn [parseFlags fold_left].
  - now intros [= <-].
  - destruct (setFlag st o) as [st1|] eqn:S; [|discriminate].
    intros H. rewrite (IH _ _ H). f_equal.
    destruct o as [v|v|v]; cbn [setFlag] in S.
    + now injection S as <-.
    + destruct (fileArgs_Set _ _ _); [|discriminate]. now injection S as <-.
    + destruct (fileArgs_Set _ _ _); [|discriminate]. now injection S as <-.
Qed.

Lemma parseFlags_grows (occs : list flagOcc) :
  ∀ st st',
    parseFlags st occs = Some st' →
    ∃ fs ls,
      flagFiles st' = flagFiles st ++ fs
      ∧ flagListFiles st' = flagListFiles st ++ ls
      ∧ List.map argFile fs = flagFValues occs
      ∧ List.map argFile ls = flagLValues occs
      ∧ Forall (fun a => relativeRoot a ≠ ""%string) (fs ++ ls).
Proof.
  induction occs as [|o occs IH]; intros st st'; cbn [parseFlags].
  - intros [= <-]. exists [], []. rewrite !app_nil_r. repeat split. constructor.
  - destruct (setFlag st o) as [st1|] eqn:S; [|discriminate].
    intros H. destruct (IH _ _ H) as (fs & ls & Hf & Hl & Hfv & Hlv & Hne).
    destruct o as [v|v|v]; cbn [setFlag] in S.
    + injection S as <-. cbn [flagFiles flagListFiles] in *.
      now exists fs, ls.
    + unfold fileArgs_Set in S.
      destruct (String.eqb (flagRelativeRoot st) ""); [discriminate|].
      injection S as <-. cbn [flagFiles flagListFiles] in *.
      eexists (_ :: fs), ls. rewrite Hf, <- app_assoc.
      split; [reflexivity|]. split; [assumption|].
      split; [cbn; now rewrite Hfv|]. split; [assumption|].
      constructor; [apply Clean_nonempty | assumption].
    + unfold fileArgs_Set in S.
      destruct (String.eqb (flagRelativeRoot st) ""); [discriminate|].
      injection S as <-. cbn [flagFiles flagListFiles] in *.
      eexists fs, (_ :: ls). rewrite Hl, <- app_assoc.
      split; [assumption|]. split; [reflexivity|].
      split; [assumption|]. split; [cbn; now rewrite Hlv|].
      apply Forall_app in Hne as [Hn1 Hn2]. apply Forall_app. split; [assumption|].
      constructor; [apply Clean_nonempty | assumption].
Qed.

(** X13: when the command line parses, the [-f] arguments are the values
    given to [-f], in order, and likewise for [-l]; each is paired with
    the cleaned value of the [-C] nearest before it, which is not empty,
    so no stored root is empty: a parse that succeeds has met no [-f] or
    [-l] while the value of [-C] was empty. *)
Theorem flags_use_last_root occs st :
  parseFlags noFlags occs = Some st →
  List.map argFile (flagFiles st) = flagFValues occs
  ∧ List.map argFile (flagListFiles st) = flagLValues occs
  ∧ Forall (fun a => relativeRoot a ≠ ""%string)
      (flagFiles st ++ flagListFiles st)
  ∧ ∀ pre o post,
      occs = pre ++ o :: post →
      match o with
      | FlagC _ => True
      | FlagF v =>
          rootAfter "" pre ≠ ""%string
          ∧ In {| relativeRoot := filepath.Clean (rootAfter "" pre);
                  argFile := v |} (flagFiles st)
      | FlagL v =>
          rootAfter "" pre ≠ ""%string
          ∧ In {| relativeRoot := filepath.Clean (rootAfter "" pre);
                  argFile := v |} (flagListFiles st)
      end.
Proof.
  intros H.
  destruct (parseFlags_grows _ _ _ H) as (fs & ls & Hf & Hl & Hfv & Hlv & Hne).
  cbn [noFlags flagFiles flagListFiles app] in Hf, Hl. subst fs ls.
  repeat split; try assumption.
  intros pre o post ->. rewrite parseFlags_app in H.
  destruct (parseFlags noFlags pre) as [st1|] eqn:P; [|discriminate].
  apply parseFlags_root in P. cbn [noFlags flagRelativeRoot] in P.
  cbn [parseFlags] in H.
  destruct (setFlag st1 o) as [st2|] eqn:S; [|discriminate].
  destruct (parseFlags_grows _ _ _ H) as (fs & ls & Hf & Hl & _).
  destruct o as [v|v|v]; [exact I| |]; cbn [setFlag] in S;
    unfold fileArgs_Set in S; rewrite P in S;
    destruct (String.eqb (rootAfter "" pre) "") eqn:E; try discriminate;
    injection S as <-; cbn [flagFiles flagListFiles] in Hf, Hl;
    (split; [now apply String.eqb_neq|]).
  - rewrite Hf. apply in_or_app. left. apply in_or_app. right. now left.
  - rewrite Hl. apply in_or_app. left. apply in_or_app. right. now left.
Qed.

Lemma flags_use_last_root_witness :
  ∃ st,
    parseFlags noFlags
      [FlagC "out//classes/"; FlagF "a.class"; FlagL "list.txt";
       FlagC "res"; FlagF "x.png"] = Some st
    ∧ List.map argFile (flagFiles st) = ["a.class"; "x.png"]%string
    ∧ List.map relativeRoot (flagFiles st) = ["out/classes"; "res"]%string.
Proof.
  eexists. split; [vm_compute; reflexivity|].
  split; [|vm_compute; reflexivity].
  apply (flags_use_last_root
           [FlagC "out//classes/"; FlagF "a.class"; FlagL "list.txt";
            FlagC "res"; FlagF "x.png"]).
  vm_compute. reflexivity.
Defined.

(** A [-f] before any [-C] is refused. *)
Example flag_f_before_C :
  parseFlags noFlags [FlagF "a.class"; FlagC "out"] = None.
Proof. reflexivity. Qed.

(** ** The manifest *)

(** X14: the manifest is handled after every [-f] file, and what it adds
    to the archive does not depend on where the manifest file is: the
    entry is named [META-INF/MANIFEST.MF], preceded by the entry of
    [META-INF/] when directories are wanted; a manifest path that is a
    directory gives the entry [META-INF/MANIFEST.MF/]. *)
Theorem manifest_entry flate fs z files manifest z1 :
  sizesBounded fs →
  manifest ≠ ""%string →
  planFiles flate fs z files = Some (z1, None) →
  ∃ z2 added,
    plan flate fs z files manifest = Some z2
    ∧ writeOps z2 = writeOps z1 ++ added
    ∧ Forall (fun p => ∀ ze, promised p = Some ze →
                In (zip.Name (fh ze))
                  ["META-INF/MANIFEST.MF"; "META-INF/";
                   "META-INF/MANIFEST.MF/"]%string) added.
Proof.
  intros B Hm Hp. unfold plan. rewrite Hp.
  apply String.eqb_neq in Hm. rewrite Hm. cbn [negb].
  destruct (writeFile_total flate fs z1 "META-INF/MANIFEST.MF" manifest B)
    as (z2 & e & Hw).
  rewrite Hw.
  destruct (writeFile_entry_names _ _ _ _ _ _ _ Hw) as (added & Ha & Hn).
  assert (Hn' : Forall (fun p => ∀ ze, promised p = Some ze →
                In (zip.Name (fh ze))
                  ["META-INF/MANIFEST.MF"; "META-INF/";
                   "META-INF/MANIFEST.MF/"]%string) added).
  { eapply Forall_impl; [exact Hn|]. intros p Hq ze Hze.
    destruct (Hq ze Hze) as [E|[E|E]]; rewrite E.
    - now left.
    - right. right. now left.
    - right. now left. }
  destruct e as [e|]; eexists _, added; (split; [reflexivity|]);
    (split; [exact Ha | exact Hn']).
Qed.

Lemma manifest_entry_witness :
  ∃ z2 added,
    plan stored.lib fsDemo (newZipWriter true 5) [fileArgHere "e.txt"]
      "a/b/c.txt" = Some z2
    ∧ writeOps z2
      = [Pending
           (delivered
              (compressWholeFile stored.lib (newZipWriter true 5) "e.txt"
                 emptyFile))] ++ added
    ∧ Forall (fun p => ∀ ze, promised p = Some ze →
                In (zip.Name (fh ze))
                  ["META-INF/MANIFEST.MF"; "META-INF/";
                   "META-INF/MANIFEST.MF/"]%string) added.
Proof.
  apply (manifest_entry stored.lib fsDemo (newZipWriter true 5)
           [fileArgHere "e.txt"] "a/b/c.txt"
           (postErrors
              (enqueue (newZipWriter true 5)
                 (Pending
                    (delivered
                       (compressWholeFile stored.lib (newZipWriter true 5)
                          "e.txt" emptyFile))))
              [] false)).
  - intros path r. unfold fsDemo.
    repeat (destruct (String.eqb path _);
            [intros [= <-]; vm_compute; reflexivity|]);
      discriminate.
  - discriminate.
  - vm_compute. reflexivity.
Defined.

(** ** Files below the root *)

Lemma fold_clean_real (isRooted : bool) (l : list string) :
  Forall realName l →
  ∀ st, fold_left (filepath.clean_elem isRooted) l st = rev l ++ st.
Proof.
  induction 1 as [|e l (H1 & H2 & H3 & _) _ IH]; intros st; [reflexivity|].
  cbn [fold_left rev]. rewrite IH, <- app_assoc. cbn [app]. f_equal.
  unfold filepath.clean_elem.
  apply String.eqb_neq in H1, H2, H3. now rewrite H1, H2, H3.
Qed.

Lemma JoinSlash_cons (c : ascii) (x : string) (l : list string) :
  ∃ s, strings.JoinSlash (String c x :: l) = String c s.
Proof.
  unfold strings.JoinSlash. cbn [String.concat].
  destruct l; eexists; reflexivity.
Qed.

Lemma rooted_JoinSlash (x : string) (l : list string) :
  realName x → filepath.rooted (strings.JoinSlash (x :: l)) = false.
Proof.
  intros (H1 & _ & _ & H4). destruct x as [|c x]; [congruence|].
  destruct (JoinSlash_cons c x l) as [s ->].
  cbn [filepath.rooted]. cbn [noSlash] in H4.
  apply andb_prop in H4 as [H4 _]. now apply negb_true_iff in H4.
Qed.

Lemma JoinSlash_inj (l l' : list string) :
  Forall okElem l → Forall okElem l' → l ≠ [] →
  strings.JoinSlash l = strings.JoinSlash l' → l = l'.
Proof.
  intros H H' Hne E. destruct l as [|x l]; [congruence|].
  destruct l' as [|y l'].
  - inversion H as [|? ? [Hx _] _]; subst. destruct x as [|c x]; [congruence|].
    destruct (JoinSlash_cons c x l) as [s Hs]. rewrite Hs in E. discriminate.
  - rewrite <- (SplitSlash_JoinSlash x l H), <- (SplitSlash_JoinSlash y l' H').
    now rewrite E.
Qed.

Lemma Clean_JoinSlash (x : string) (l : list string) :
  Forall realName (x :: l) →
  filepath.Clean (strings.JoinSlash (x :: l)) = strings.JoinSlash (x :: l).
Proof.
  intros H. unfold filepath.Clean, filepath.clean_elems.
  assert (Ho : Forall okElem (x :: l))
    by (eapply Forall_impl; [exact H | exact realName_okElem]).
  inversion H as [|? ? Hx _]; subst.
  rewrite (rooted_JoinSlash x l Hx), SplitSlash_JoinSlash by exact Ho.
  rewrite fold_clean_real by exact H. rewrite app_nil_r, rev_involutive.
  destruct Hx as (H1 & _). destruct x as [|c x]; [congruence|].
  destruct (JoinSlash_cons c x l) as [s Hs]. now rewrite Hs.
Qed.

Lemma strip_common_prefix (rs t : list string) :
  filepath.strip_common rs (rs ++ t) = ([], t).
Proof.
  induction rs as [|r rs IH]; [reflexivity|].
  cbn [app filepath.strip_common]. now rewrite String.eqb_refl.
Qed.

Lemma Rel_below (rs : list string) (x : string) (l : list string) :
  Forall realName rs → Forall realName (x :: l) →
  filepath.Rel (rootPath rs) (strings.JoinSlash (rs ++ x :: l))
  = Some (strings.JoinSlash (x :: l)).
Proof.
  intros Hr Hl.
  assert (Ht : Forall realName (rs ++ x :: l)) by (apply Forall_app; now split).
  assert (Hto : Forall okElem (rs ++ x :: l))
    by (eapply Forall_impl; [exact Ht | exact realName_okElem]).
  assert (Hro : Forall okElem rs)
    by (eapply Forall_impl; [exact Hr | exact realName_okElem]).
  assert (Hlo : Forall okElem (x :: l))
    by (eapply Forall_impl; [exact Hl | exact realName_okElem]).
  assert (Ct : filepath.Clean (strings.JoinSlash (rs ++ x :: l))
               = strings.JoinSlash (rs ++ x :: l)).
  { destruct rs; cbn [app] in *; now apply Clean_JoinSlash. }
  assert (Rt : filepath.rooted (strings.JoinSlash (rs ++ x :: l)) = false).
  { destruct rs; cbn [app] in *; apply rooted_JoinSlash;
      [now inversion Hl | now inversion Hr]. }
  unfold filepath.Rel. rewrite Ct.
  destruct rs as [|r rs]; cbn [rootPath].
  - change (filepath.Clean ".") with "."%string. cbn [app] in *.
    destruct (String.eqb (strings.JoinSlash (x :: l)) ".") eqn:E.
    { apply String.eqb_eq in E.
      apply (JoinSlash_inj (x :: l) ["."%string]) in E;
        [| assumption | repeat constructor; discriminate | discriminate].
      injection E as -> _. inversion Hl as [|? ? (_ & H2 & _) _]. congruence. }
    change (String.eqb "." ".") with true. cbv iota.
    rewrite Rt. change (filepath.rooted "") with false. cbn [Bool.eqb negb].
    change (filepath.elems "") with (@nil string).
    rewrite elems_JoinSlash by assumption. reflexivity.
  - rewrite Clean_JoinSlash by assumption.
    destruct (String.eqb (strings.JoinSlash ((r :: rs) ++ x :: l))
                (strings.JoinSlash (r :: rs))) eqn:E.
    { apply String.eqb_eq in E. apply JoinSlash_inj in E;
        [| assumption | assumption | discriminate].
      apply (f_equal (@length string)) in E. rewrite length_app in E.
      cbn [length] in E. lia. }
    destruct (String.eqb (strings.JoinSlash (r :: rs)) ".") eqn:E'.
    { apply String.eqb_eq in E'.
      apply (JoinSlash_inj (r :: rs) ["."%string]) in E';
        [| assumption | repeat constructor; discriminate | discriminate].
      injection E' as -> _. inversion Hr as [|? ? (_ & H2 & _) _]. congruence. }
    rewrite Rt, rooted_JoinSlash by now inversion Hr.
    cbn [Bool.eqb negb].
    rewrite !elems_JoinSlash by assumption.
    now rewrite strip_common_prefix.
Qed.

(** X15: a file given by a clean path below its clean root is stored
    under its path from the root and read at its own path: for a root
    made of the names [rs] (the current directory when there is none) and
    a file at [rs/x/...], [writeRelFile] does what [writeFile] does for
    the name [x/...]. *)
Theorem writeRelFile_below_root flate fs z rs x l :
  Forall realName rs →
  Forall realName (x :: l) →
  writeRelFile flate fs z (rootPath rs) (strings.JoinSlash (rs ++ x :: l))
  = writeFile flate fs z (strings.JoinSlash (x :: l))
      (strings.JoinSlash (rs ++ x :: l)).
Proof.
  intros Hr Hl. unfold writeRelFile.
  assert (Ct : filepath.Clean (strings.JoinSlash (rs ++ x :: l))
               = strings.JoinSlash (rs ++ x :: l)).
  { assert (Ht : Forall realName (rs ++ x :: l))
      by (apply Forall_app; now split).
    destruct rs; cbn [app] in *; now apply Clean_JoinSlash. }
  cbv zeta. rewrite Ct, Rel_below by assumption. reflexivity.
Qed.

Lemma writeRelFile_below_root_witness :
  writeRelFile stored.lib fsDemo (newZipWriter true 5) "a" "a/b/c.txt"
  = writeFile stored.lib fsDemo (newZipWriter true 5) "b/c.txt" "a/b/c.txt".
Proof.
  apply (writeRelFile_below_root stored.lib fsDemo (newZipWriter true 5)
           ["a"%string] "b"%string ["c.txt"%string]).
  - repeat constructor; discriminate.
  - repeat constructor; discriminate.
Defined.

(** ** The ARM toolchain factory *)

(** X16: [armToolchainFactory] panics exactly on the architecture variants
    other than [armv5te], [armv7-a] and [armv7-a-neon]. Otherwise the
    linker flags are [${config.ArmLdflags}] followed by a space and the
    Cortex-A8 flag: the fix for [armv7-a-neon] on a [cortex-a8] or an
    unnamed CPU, its negation for [armv7-a-neon] on any other CPU, and
    nothing after the space for the other two variants. *)
Theorem factory_ldflags vod (arch : arm.Arch) :
  match arm.armToolchainFactory vod arch with
  | None => ¬ In (arm.ArchVariant arch) arm.knownVariants
  | Some t =>
      In (arm.ArchVariant arch) arm.knownVariants
      ∧ (arm.ldflags t = "${config.ArmLdflags} -Wl,--fix-cortex-a8"%string
         ↔ arm.ArchVariant arch = "armv7-a-neon"%string
           ∧ (arm.CpuVariant arch = "cortex-a8"%string
              ∨ arm.CpuVariant arch = ""%string))
      ∧ (arm.ldflags t = "${config.ArmLdflags} -Wl,--no-fix-cortex-a8"%string
         ↔ arm.ArchVariant arch = "armv7-a-neon"%string
           ∧ arm.CpuVariant arch ≠ "cortex-a8"%string
           ∧ arm.CpuVariant arch ≠ ""%string)
      ∧ (arm.ldflags t = "${config.ArmLdflags} "%string
         ↔ arm.ArchVariant arch ≠ "armv7-a-neon"%string)
  end.
Proof.
  unfold arm.armToolchainFactory, arm.knownVariants. cbv zeta.
  destruct (String.eqb (arm.ArchVariant arch) "armv7-a-neon") eqn:E1.
  - apply String.eqb_eq in E1.
    destruct (String.eqb (arm.CpuVariant arch) "cortex-a8") eqn:C1;
      [apply String.eqb_eq in C1
      | apply String.eqb_neq in C1;
        destruct (String.eqb (arm.CpuVariant arch) "") eqn:C2;
        [apply String.eqb_eq in C2 | apply String.eqb_neq in C2] ];
      cbn [orb arm.ldflags arm.JoinSpace String.concat];
      (split; [rewrite E1; cbn; tauto|]);
      repeat split; intros; try discriminate; try tauto; try congruence.
    all: try (now left); try (now right).
    all: match goal with
         | H : _ ∧ _ |- _ => destruct H as (_ & H1 & H2); try congruence
         | _ => idtac
         end.
    all: match goal with
         | H : _ ∧ (_ ∨ _) |- _ => destruct H as (_ & [H1|H1]); congruence
         | _ => idtac
         end.
  - apply String.eqb_neq in E1.
    destruct (String.eqb (arm.ArchVariant arch) "armv7-a") eqn:E2;
      [apply String.eqb_eq in E2
      | apply String.eqb_neq in E2;
        destruct (String.eqb (arm.ArchVariant arch) "armv5te") eqn:E3;
        [apply String.eqb_eq in E3 | apply String.eqb_neq in E3] ].
    + cbn [arm.ldflags arm.JoinSpace String.concat].
      split; [rewrite E2; cbn; tauto|].
      repeat split; intros; try discriminate; try tauto.
    + cbn [arm.ldflags arm.JoinSpace String.concat].
      split; [rewrite E3; cbn; tauto|].
      repeat split; intros; try discriminate; try tauto.
    + cbn [In]. intros [H|[H|[H|[]]]]; congruence.
Qed.

(** X17: the CPU variant matters only for [armv7-a-neon]: for the other
    architecture variants the factory gives the same toolchain, or the
    same panic, whatever the CPU variant is. *)
Theorem factory_cpu_only_for_neon vod (a b : arm.Arch) :
  arm.ArchVariant a = arm.ArchVariant b →
  arm.ArchVariant a ≠ "armv7-a-neon"%string →
  arm.armToolchainFactory vod a = arm.armToolchainFactory vod b.
Proof.
  intros E N. unfold arm.armToolchainFactory. cbv zeta. rewrite <- E.
  apply String.eqb_neq in N. now rewrite N.
Qed.

Lemma factory_cpu_only_for_neon_witness :
  arm.armToolchainFactory (fun _ cpu => cpu)
    {| arm.ArchVariant := "armv7-a"; arm.CpuVariant := "cortex-a8" |}
  = arm.armToolchainFactory (fun _ cpu => cpu)
      {| arm.ArchVariant := "armv7-a"; arm.CpuVariant := "krait" |}.
Proof.
  apply (factory_cpu_only_for_neon (fun _ cpu => cpu)
           {| arm.ArchVariant := "armv7-a"; arm.CpuVariant := "cortex-a8" |}
           {| arm.ArchVariant := "armv7-a"; arm.CpuVariant := "krait" |}).
  - reflexivity.
  - discriminate.
Defined.

(** The toolchain of a Krait CPU on [armv7-a-neon], with [variantOrDefault]
    reading the table. *)
Example factory_krait :
  arm.armToolchainFactory (fun m cpu => arm.at_key m cpu)
    {| arm.ArchVariant := "armv7-a-neon"; arm.CpuVariant := "krait" |}
  = Some
      {| arm.ldflags := "${config.ArmLdflags} -Wl,--no-fix-cortex-a8";
         arm.toolchainCflags :=
           "${config.ArmToolchainCflags} ${config.ArmArmv7ANeonCflags} ${config.ArmKraitCflags}";
         arm.toolchainClangCflags :=
           "${config.ArmToolchainClangCflags} ${config.ArmClangArmv7ANeonCflags} ${config.ArmClangKraitCflags}" |}.
Proof. vm_compute. reflexivity. Qed.

(** ** Small files: what is delivered decodes to the file *)

(** X18: whenever the task of a small file delivers its entry, the entry
    gives back the file: it has one payload, which is the bytes of the
    file under method Store and inflates to them under method Deflate
    (for any compressor whose closed streams inflate to their input), and
    its header carries the CRC-32 and the size of the file. *)
Theorem small_entry_round_trip flate (inflate : bytes → option bytes)
    z rel r ze :
  (∀ level data,
     inflate (deflate flate level None data EndClose) = Some data) →
  compressWholeFile flate z rel r = Done ze →
  ∃ payload,
    futureReaders ze = Some [Some payload]
    ∧ match zip.Method (fh ze) with
      | zip.Deflate => inflate payload
      | zip.Store => Some payload
      end = Some (content r)
    ∧ zip.CRC32 (fh ze) = crc32.Sum32 (content r)
    ∧ zip.UncompressedSize64 (fh ze) = fileSize r.
Proof.
  intros Hi. unfold compressWholeFile, compressBlock, Copy, ReadAll, wholeReader.
  cbn [rd_fault rd_data rd_op].
  destruct (fault r OpCrc); [discriminate|].
  destruct (fault r OpSeekCompress); [discriminate|].
  destruct (negb (levelOk flate (compLevel z))); [discriminate|].
  destruct (fault r OpCompress); [discriminate|].
  cbn [length Nat.ltb Nat.leb].
  destruct (_ <? _)%Z.
  - intros [= <-]. eexists. split; [reflexivity|].
    cbn [fh zip.Method zip.CRC32 zip.UncompressedSize64]. now rewrite Hi.
  - destruct (fault r OpSeekRaw); [discriminate|].
    destruct (fault r OpReadRaw); [discriminate|].
    intros [= <-]. eexists. split; [reflexivity|]. now repeat split.
Qed.

Lemma small_entry_round_trip_witness :
  ∃ ze payload,
    compressWholeFile stored.lib (newZipWriter false 5) "b/c.txt" helloFile
    = Done ze
    ∧ futureReaders ze = Some [Some payload]
    ∧ match zip.Method (fh ze) with
      | zip.Deflate => stored.inflate payload
      | zip.Store => Some payload
      end = Some (content helloFile)
    ∧ zip.CRC32 (fh ze) = crc32.Sum32 (content helloFile)
    ∧ zip.UncompressedSize64 (fh ze) = fileSize helloFile.
Proof.
  eexists.
  destruct (small_entry_round_trip stored.lib stored.inflate
              (newZipWriter false 5) "b/c.txt" helloFile
              _ (fun level data => inflate_closed level None data) eq_refl)
    as (payload & H).
  exists payload. split; [reflexivity | exact H].
Defined.

(** ** [-l] is [-f] for each line *)

Lemma planFiles_app flate fs (a b : list fileArg) :
  ∀ z,
    planFiles flate fs z (a ++ b)
    = match planFiles flate fs z a with
      | Some (z1, None) => planFiles flate fs z1 b
      | other => other
      end.
Proof.
  induction a as [|f a IH]; intros z; [reflexivity|].
  cbn [app planFiles].
  destruct (writeRelFile flate fs z (relativeRoot f) (argFile f))
    as [[z1 [e|]]|]; [reflexivity | apply IH | reflexivity].
Qed.

Lemma planLists_as_files flate fs TrimSpace ReadFile (texts : string → string) :
  ∀ lists z,
    Forall (fun l => ReadFile (argFile l) = inl (texts (argFile l))) lists →
    planLists flate fs TrimSpace ReadFile z lists
    = planFiles flate fs z
        (flat_map (fun l => listedFiles TrimSpace (relativeRoot l)
                              (texts (argFile l))) lists).
Proof.
  induction lists as [|l lists IH]; intros z H; [reflexivity|].
  inversion H as [|? ? Hl Hr]; subst.
  cbn [planLists flat_map]. rewrite planFiles_app.
  unfold writeListFile. rewrite Hl, writeListLines_planFiles.
  fold (listedFiles TrimSpace (relativeRoot l) (texts (argFile l))).
  destruct (planFiles flate fs z _) as [[z1 [e|]]|];
    [reflexivity | now apply IH | reflexivity].
Qed.

(** X19: list files are a shorthand: when every list file can be read,
    the build plans exactly what it would plan with no [-l] at all and a
    [-f] for each listed line, under the root of its list file, put
    before the [-f] arguments of the command line. *)
Theorem lists_expand_to_files flate fs TrimSpace ReadFile
    (texts : string → string) z lists files manifest :
  Forall (fun l => ReadFile (argFile l) = inl (texts (argFile l))) lists →
  planAll flate fs TrimSpace ReadFile z lists files manifest
  = plan flate fs z
      (flat_map (fun l => listedFiles TrimSpace (relativeRoot l)
                            (texts (argFile l))) lists ++ files)
      manifest.
Proof.
  intros H. unfold planAll, plan.
  rewrite (planLists_as_files _ _ _ _ texts) by exact H.
  rewrite planFiles_app.
  destruct (planFiles flate fs z _) as [[z1 [e|]]|]; reflexivity.
Qed.

Lemma lists_expand_to_files_witness :
  planAll stored.lib fsDemo asciiTrimSpace readDemo (newZipWriter true 5)
    [fileArgHere "list.txt"] [fileArgHere "b/c.txt"] ""
  = plan stored.lib fsDemo (newZipWriter true 5)
      (flat_map (fun l => listedFiles asciiTrimSpace (relativeRoot l)
                   (match readDemo (argFile l) with
                    | inl text => text
                    | inr _ => ""%string
                    end)) [fileArgHere "list.txt"]
       ++ [fileArgHere "b/c.txt"])
      "".
Proof.
  apply (lists_expand_to_files stored.lib fsDemo asciiTrimSpace readDemo
           (fun path => match readDemo path with
                        | inl text => text
                        | inr _ => ""%string
                        end)).
  repeat constructor.
Defined.
